(** * SCAR: carbon-footprint calculator and scenario engine

    A shallow embedding of the Python sources

      - [emission_factors.py]            (the factor table)
      - [calculations/emissions.py]      ([calculate_emissions])
      - [calculations/scenarios/rules.py], [utils.py], [engine.py]
      - [app.py]                         (the indicators computed by [results])

    Modelling conventions.

    - The program computes on Python floats.  Its functions are written
      once, over an arithmetic [Arith F], and read in two ways: over the
      exact rationals ([exact], on [Q]), and over IEEE 754 binary64
      ([binary64], on [spec_float] with round-to-nearest-even), which is
      the arithmetic CPython runs.  What a scenario leaves under each key
      is proved for every arithmetic, binary64 included; the sign of the
      amounts is proved over [Q] and over binary64; totals and orders are
      proved over [Q] for every input, and evaluated in binary64 on
      examples, where rounding can break them.  Over [Q], equalities
      between amounts are stated with [==] or after [Qred].
    - A Python [dict] is an insertion-ordered association list with the
      operations the sources use ([in], [get], subscript assignment,
      [items], [values]).
    - The builtins [float()] and [int()] applied to form strings are
      parameters of the functions that call them; [None] stands for the
      [ValueError] they raise.  Concrete readers of decimal literals are
      given for the examples.
    - A Python [set] literal that is iterated over is a list in the order of
      the source text.  Over [Q] the scenario loops are shown not to depend
      on that order; in any arithmetic, visiting the two cars in the other
      order changes only the order in which [carpool] receives their
      reductions. *)

From Stdlib Require Import QArith Qround ZArith List String Ascii Bool Lia Lqa.
From Stdlib Require Import Permutation SpecFloat.
Import ListNotations.

Local Open Scope string_scope.
Local Open Scope Q_scope.

(* ================================================================== *)
(** ** Arithmetic *)

(** The operations the program applies to floats: literals, the four
    operations, [<], and [round(x, ndigits)]. *)
Class Arith (F : Type) : Type := {
  lit : Q -> F;
  add : F -> F -> F;
  sub : F -> F -> F;
  mul : F -> F -> F;
  div : F -> F -> F;
  ltb : F -> F -> bool;
  round : F -> nat -> F
}.
Arguments lit {F A} _%_Q : rename.
Arguments add {F A} _ _ : rename.
Arguments sub {F A} _ _ : rename.
Arguments mul {F A} _ _ : rename.
Arguments div {F A} _ _ : rename.
Arguments ltb {F A} _ _ : rename.
Arguments round {F A} _ _ : rename.

Declare Scope py_scope.
Delimit Scope py_scope with py.
Notation "x + y" := (add x y) : py_scope.
Notation "x - y" := (sub x y) : py_scope.
Notation "x * y" := (mul x y) : py_scope.
Notation "x / y" := (div x y) : py_scope.
Notation "x <? y" := (ltb x y) : py_scope.
Notation "x >? y" := (ltb y x) (only parsing) : py_scope.

Section Builtins.
Context {F : Type} {A : Arith F}.
Local Open Scope py_scope.

(** Python's two-argument [min]: the first argument unless the second is
    strictly smaller. *)
Definition py_min (a b : F) : F := if b <? a then b else a.

(** Python's [sum] over a sequence of floats, starting from [0]: the items
    are added from left to right.  (CPython 3.12 and later also carry the
    rounding errors of the partial sums along; on at most two items the
    result is the same float.) *)
Definition py_sum (l : list F) : F := fold_left add l (lit 0).
End Builtins.

(** *** Exact arithmetic *)

(** [x < y] and [x > y] on rationals, as booleans. *)
Definition Qlt_bool (x y : Q) : bool := negb (Qle_bool y x).
Abbreviation Qgt_bool x y := (Qlt_bool y x).

(** Rounding to the nearest integer, ties to even. *)
Definition round_half_even (x : Q) : Z :=
  let f := Qfloor x in
  match Qcompare (x - inject_Z f) (1 # 2) with
  | Lt => f
  | Gt => (f + 1)%Z
  | Eq => if Z.even f then f else (f + 1)%Z
  end.

(** [round(x, ndigits)] on an exact value: the nearest decimal with
    [ndigits] digits, ties to even. *)
Definition exact_round (x : Q) (ndigits : nat) : Q :=
  let scale := Pos.pow 10 (Pos.of_nat ndigits) in
  match ndigits with
  | O => inject_Z (round_half_even x)
  | S _ => Qmake (round_half_even (x * inject_Z (Zpos scale))) scale
  end.

#[export] Instance exact : Arith Q | 0 := {|
  lit := fun q => q;
  add := Qplus;
  sub := Qminus;
  mul := Qmult;
  div := Qdiv;
  ltb := Qlt_bool;
  round := exact_round
|}.

(** *** Binary64 arithmetic *)

Definition prec : Z := 53.
Definition emax : Z := 1024.

(** The binary64 number nearest to a rational (ties to even): what a
    float literal and [float()] on a decimal string denote. *)
Definition Q2F (q : Q) : spec_float :=
  match Qnum q with
  | Z0 => S754_zero false
  | Zpos n =>
      SFdiv prec emax (S754_finite false n 0) (S754_finite false (Qden q) 0)
  | Zneg n =>
      SFdiv prec emax (S754_finite true n 0) (S754_finite false (Qden q) 0)
  end.

(** The rational a finite binary64 number stands for. *)
Definition F2Q (x : spec_float) : option Q :=
  match x with
  | S754_zero _ => Some 0
  | S754_finite s m e =>
      let magnitude :=
        match e with
        | Z0 => inject_Z (Zpos m)
        | Zpos p => inject_Z (Zpos m * Zpos (Pos.pow 2 p))
        | Zneg p => Qmake (Zpos m) (Pos.pow 2 p)
        end in
      Some (if s then - magnitude else magnitude)
  | S754_infinity _ | S754_nan => None
  end.

(** [round(x, ndigits)] on a float: the decimal nearest to the exact value
    of [x], then the float nearest to that decimal; [inf] and [nan] round
    to themselves. *)
Definition binary64_round (x : spec_float) (ndigits : nat) : spec_float :=
  match F2Q x with
  | Some q => Q2F (exact_round q ndigits)
  | None => x
  end.

#[export] Instance binary64 : Arith spec_float | 10 := {|
  lit := Q2F;
  add := SFadd prec emax;
  sub := SFsub prec emax;
  mul := SFmul prec emax;
  div := SFdiv prec emax;
  ltb := SFltb;
  round := binary64_round
|}.

(* ================================================================== *)
(** ** Dictionaries *)

Definition dict (V : Type) : Type := list (string * V).

Section Dict.
Context {V : Type}.

(** [d.get(k)] *)
Fixpoint get (k : string) (d : dict V) : option V :=
  match d with
  | [] => None
  | (k', v) :: d' => if String.eqb k k' then Some v else get k d'
  end.

(** [k in d] *)
Definition contains (k : string) (d : dict V) : bool :=
  match get k d with Some _ => true | None => false end.

(** [d.get(k, default)] *)
Definition get_default (k : string) (default : V) (d : dict V) : V :=
  match get k d with Some v => v | None => default end.

(** [d[k] = v]: overwrite in place, or append a new key. *)
Fixpoint set (k : string) (v : V) (d : dict V) : dict V :=
  match d with
  | [] => [(k, v)]
  | (k', v') :: d' =>
      if String.eqb k k' then (k, v) :: d' else (k', v') :: set k v d'
  end.

(** [d.keys()], [d.values()] *)
Definition keys (d : dict V) : list string := map fst d.
Definition values (d : dict V) : list V := map snd d.
End Dict.

(** Membership in a Python [set] of strings. *)
Definition mem (k : string) (s : list string) : bool :=
  existsb (String.eqb k) s.

(* ================================================================== *)
(** ** Form values and the builtins reading them *)

(** What [form_data.get(key, 0)] returns: a string of the form, or the
    integer default. *)
Inductive raw : Type :=
| RawStr (s : string)
| RawInt (z : Z).

Definition form_get (form_data : dict string) (key : string) (default : Z) : raw :=
  match get key form_data with
  | Some s => RawStr s
  | None => RawInt default
  end.

(** *** Readers of decimal literals, for the examples *)

Definition is_space (c : ascii) : bool :=
  let n := nat_of_ascii c in
  (Nat.eqb n 32 || (Nat.leb 9 n && Nat.leb n 13))%bool.

Definition digit_of (c : ascii) : option Z :=
  let n := nat_of_ascii c in
  if (Nat.leb 48 n && Nat.leb n 57)%bool then Some (Z.of_nat (n - 48)) else None.

Fixpoint drop_spaces (s : list ascii) : list ascii :=
  match s with
  | c :: s' => if is_space c then drop_spaces s' else s
  | [] => []
  end.

(** [s.strip()] *)
Definition strip (s : list ascii) : list ascii :=
  rev (drop_spaces (rev (drop_spaces s))).

(** Reads a maximal run of digits: its value after [acc], how many digits
    were read, and the rest. *)
Fixpoint read_digits (s : list ascii) (acc : Z) (count : nat)
  : Z * nat * list ascii :=
  match s with
  | c :: s' =>
      match digit_of c with
      | Some d => read_digits s' (acc * 10 + d)%Z (S count)
      | None => (acc, count, s)
      end
  | [] => (acc, count, [])
  end.

(** Reads an optional sign; [true] when negative. *)
Definition read_sign (s : list ascii) : bool * list ascii :=
  match s with
  | "-"%char :: s' => (true, s')
  | "+"%char :: s' => (false, s')
  | _ => (false, s)
  end.

Definition apply_sign (neg : bool) (z : Z) : Z := if neg then (- z)%Z else z.

(** [int(s)] on a decimal literal: optional blanks, optional sign, digits. *)
Definition parse_int (s : string) : option Z :=
  let '(neg, s1) := read_sign (strip (list_ascii_of_string s)) in
  match read_digits s1 0 0 with
  | (_, O, _) => None
  | (z, S _, []) => Some (apply_sign neg z)
  | (_, S _, _ :: _) => None
  end.

(** [10 ** e] as a float, for an integer exponent. *)
Definition pow10 (e : Z) : Q :=
  match e with
  | Z0 => 1
  | Zpos p => inject_Z (Zpos (Pos.pow 10 p))
  | Zneg p => 1 # (Pos.pow 10 p)
  end.

(** The optional exponent part of a float literal. *)
Definition read_exponent (s : list ascii) : option Z :=
  match s with
  | [] => Some 0%Z
  | c :: s' =>
      if (Ascii.eqb c "e" || Ascii.eqb c "E")%bool then
        let '(neg, s2) := read_sign s' in
        match read_digits s2 0 0 with
        | (_, O, _) => None
        | (z, S _, []) => Some (apply_sign neg z)
        | (_, S _, _ :: _) => None
        end
      else None
  end.

(** [float(s)] on a finite decimal literal: optional blanks, optional sign,
    digits with an optional fraction, optional exponent. *)
Definition parse_float (s : string) : option Q :=
  let '(neg, s1) := read_sign (strip (list_ascii_of_string s)) in
  let '(ip, ni, s2) := read_digits s1 0 0 in
  let '(m, nf, s3) :=
    match s2 with
    | "."%char :: s2' =>
        let '(m, n, s3) := read_digits s2' ip 0 in (m, n, s3)
    | _ => (ip, O, s2)
    end in
  match (ni + nf)%nat with
  | O => None
  | S _ =>
      match read_exponent s3 with
      | Some e =>
          Some (inject_Z (apply_sign neg m) * pow10 (e - Z.of_nat nf))
      | None => None
      end
  end.

(** The exception a builtin raises on a malformed string. *)
Inductive exn : Type := ValueError.

(** A call either returns or raises. *)
Inductive outcome (T : Type) : Type :=
| Returns (a : T)
| Raises (e : exn).
Arguments Returns {T} a.
Arguments Raises {T} e.

(* ================================================================== *)
(** * The program *)

Section Program.
Context {F : Type} {A : Arith F}.
Local Open Scope py_scope.

(* ================================================================== *)
(** ** emission_factors.py *)

Definition FACTORS : dict F :=
  [ ("flight_short", lit 0.255); ("flight_medium", lit 0.145);
    ("flight_long", lit 0.133);
    ("train_tgv", lit 0.003); ("train_ter", lit 0.007);
    ("car_diesel", lit 0.25); ("car_essence", lit 0.23);
    ("carpool", lit 0.083); ("bus", lit 0.10); ("metro", lit 0.005);
    ("electricity", lit 0.079); ("gas", lit 0.227); ("fioul", lit 0.300);
    ("heating_network", lit 0.180);
    ("laptops", lit 300); ("desktop", lit 450); ("screen", lit 100);
    ("server", lit 1600); ("cloud", lit 120);
    ("video_conf", lit 0.055); ("email", lit 0.035);
    ("llm_usage", lit 0.001); ("ai_training", lit 3.0);
    ("meat_meals", lit 5.0); ("white_meat_meals", lit 2.0);
    ("veg_meals", lit 1.0); ("coffee", lit 0.07);
    ("hotel_night", lit 6.5); ("airbnb_night", lit 3.5);
    ("conference_day", lit 15.0); ("conference_meal", lit 4.0) ].

(* ================================================================== *)
(** ** calculations/emissions.py *)

Section Emissions.
(** [float()] on a string of the form. *)
Variable float_of_str : string -> option F.

(** [float(raw_value)]; [None] is the [ValueError] caught by the caller. *)
Definition py_float (r : raw) : option F :=
  match r with
  | RawStr s => float_of_str s
  | RawInt z => Some (lit (inject_Z z))
  end.

(** The quantity declared for [key]: the [try]/[except] around [float()]
    and the clamp of negative values. *)
Definition activity_value (form_data : dict string) (key : string) : F :=
  let raw_value := form_get form_data key 0 in
  let activity_value :=
    match py_float raw_value with
    | Some x => x
    | None => lit 0.0
    end in
  if activity_value <? lit 0 then lit 0.0 else activity_value.

(** One turn of the loop over [FACTORS.items()], on the pair
    [(emissions, total)]. *)
Definition emissions_step (form_data : dict string)
    (state : dict F * F) (item : string * F) : dict F * F :=
  let '(emissions, total) := state in
  let '(key, factor) := item in
  let emission_value := activity_value form_data key * factor in
  if emission_value >? lit 0 then
    let emission_value := round emission_value 2 in
    (set key emission_value emissions, total + emission_value)
  else (emissions, total).

Definition calculate_emissions (form_data : dict string) : dict F * F :=
  fold_left (emissions_step form_data) FACTORS ([], lit 0.0).
End Emissions.

(* ================================================================== *)
(** ** calculations/scenarios/rules.py *)

Definition STRUCTURAL_POSTS : list string :=
  ["electricity"; "gas"; "fioul"; "heating_network"].

Definition WEAKLY_SCENARISABLE_POSTS : list string :=
  ["hotel_night"; "airbnb_night"; "conference_day"; "conference_meal"].

Definition MOBILITY_SUBSTITUTION_POSTS : list string :=
  ["flight_short"; "flight_medium"; "flight_long"; "car_diesel"; "car_essence"].

Definition MOBILITY_ALTERNATIVES : list string :=
  ["train_tgv"; "train_ter"; "carpool"; "bus"; "metro"].

Definition DIGITAL_SOBRIETY_POSTS : list string :=
  ["cloud"; "video_conf"; "email"; "llm_usage"].

Definition DIGITAL_STRUCTURAL_POSTS : list string :=
  ["server"; "ai_training"; "laptops"; "desktop"; "screen"].

Definition MAX_FLIGHT_SUBSTITUTION : dict F :=
  [ ("flight_short", lit 0.6);
    ("flight_medium", lit 0.4);
    ("flight_long", lit 0.15) ].

Definition CAR_SUBSTITUTION_RATE : F := lit 0.3.

Definition MAX_DIGITAL_REDUCTION : F := lit 0.3.

Definition UTILITY_HIGH : Z := 8.
Definition UTILITY_MEDIUM : Z := 5.

Definition MAX_GLOBAL_REDUCTION : F := lit 0.2.

(** [name -> (min_utility, digital_reduction, mobility_reduction_factor)] *)
Definition UTILITY_SCENARIO_LEVELS : dict (Z * F * F) :=
  [ ("high", (8%Z, lit 0.10, lit 0.5));
    ("medium", (5%Z, lit 0.25, lit 1.0));
    ("low", (0%Z, lit 0.40, lit 1.3)) ].

(** The set literal [{"car_diesel", "car_essence"}] of the engine's loops. *)
Definition CAR_POSTS : list string := ["car_diesel"; "car_essence"].

(* ================================================================== *)
(** ** calculations/scenarios/utils.py *)

(** [{k: float(v) for k, v in emissions.items()}] *)
Definition copy_emissions (emissions : dict F) : dict F :=
  map (fun kv => (fst kv, snd kv)) emissions.


(* ================================================================== *)
(** ** calculations/scenarios/engine.py *)

(** Body of the flight loop of [scenario_modal_substitution]. *)
Definition modal_flight_step (emissions : dict F) (item : string * F)
  : dict F :=
  let '(flight, max_rate) := item in
  match get flight emissions with
  | Some v =>
      if v >? lit 0 then
        let reduced := v * max_rate in
        let emissions := set flight (v - reduced) emissions in
        set "train_tgv"
            (get_default "train_tgv" (lit 0) emissions + reduced * lit 0.1)
            emissions
      else emissions
  | None => emissions
  end.

(** Body of the car loop of [scenario_modal_substitution]. *)
Definition modal_car_step (emissions : dict F) (car : string) : dict F :=
  match get car emissions with
  | Some v =>
      if v >? lit 0 then
        let reduced := v * CAR_SUBSTITUTION_RATE in
        let emissions := set car (v - reduced) emissions in
        set "carpool" (get_default "carpool" (lit 0) emissions + reduced)
            emissions
      else emissions
  | None => emissions
  end.

Definition scenario_modal_substitution (baseline : dict F) : dict F :=
  let emissions := copy_emissions baseline in
  let emissions := fold_left modal_flight_step MAX_FLIGHT_SUBSTITUTION emissions in
  let emissions := fold_left modal_car_step CAR_POSTS emissions in
  emissions.

(** Body of the loops over [DIGITAL_SOBRIETY_POSTS]:
    [emissions[post] *= (1 - reduction)]. *)
Definition digital_step (reduction : F) (emissions : dict F) (post : string)
  : dict F :=
  match get post emissions with
  | Some v =>
      if v >? lit 0 then set post (v * (lit 1 - reduction)) emissions
      else emissions
  | None => emissions
  end.

Definition scenario_digital_sobriety (baseline : dict F) : dict F :=
  let emissions := copy_emissions baseline in
  fold_left (digital_step MAX_DIGITAL_REDUCTION) DIGITAL_SOBRIETY_POSTS emissions.

(** The [if]/[elif]/[else] on the utility score:
    [(digital_reduction, mobility_factor)]. *)
Definition utility_parameters (utility : Z) : F * F :=
  if (utility >=? 8)%Z then (lit 0.1, lit 0.5)
  else if (utility >=? 5)%Z then (lit 0.25, lit 1.0)
  else (lit 0.4, lit 1.3).

(** Body of the flight loop of [scenario_utility_aware]. *)
Definition utility_flight_step (mobility_factor : F)
    (emissions : dict F) (item : string * F) : dict F :=
  let '(flight, max_rate) := item in
  match get flight emissions with
  | Some v =>
      if v >? lit 0 then
        let reduced := v * py_min (max_rate * mobility_factor) max_rate in
        let emissions := set flight (v - reduced) emissions in
        set "train_tgv"
            (get_default "train_tgv" (lit 0) emissions + reduced * lit 0.1)
            emissions
      else emissions
  | None => emissions
  end.

(** Body of the car loop of [scenario_utility_aware]. *)
Definition utility_car_step (mobility_factor : F)
    (emissions : dict F) (car : string) : dict F :=
  match get car emissions with
  | Some v =>
      if v >? lit 0 then
        let reduced := v * CAR_SUBSTITUTION_RATE * mobility_factor in
        let emissions := set car (v - reduced) emissions in
        set "carpool" (get_default "carpool" (lit 0) emissions + reduced)
            emissions
      else emissions
  | None => emissions
  end.

Definition scenario_utility_aware (baseline : dict F) (utility : Z) : dict F :=
  let emissions := copy_emissions baseline in
  let '(digital_reduction, mobility_factor) := utility_parameters utility in
  let emissions :=
    fold_left (digital_step digital_reduction) DIGITAL_SOBRIETY_POSTS emissions in
  let emissions :=
    fold_left (utility_flight_step mobility_factor) MAX_FLIGHT_SUBSTITUTION emissions in
  let emissions :=
    fold_left (utility_car_step mobility_factor) CAR_POSTS emissions in
  emissions.

(* ================================================================== *)
(** ** app.py: the indicators computed by [results] *)

(** The keyword arguments handed to the results template. *)
Record page : Type := Page {
  page_results : dict F;
  page_totals : dict F;
  page_reductions : dict F;
  page_utility : Z;
  page_dominant_post : string;
  page_dominant_share : F;
  page_baseline_profile : string
}.

(** [max(items, key=lambda x: x[1])] after a first item: a later item wins
    only with a strictly larger value. *)
Fixpoint max_item (best : string * F) (items : list (string * F))
  : string * F :=
  match items with
  | [] => best
  | x :: items' =>
      max_item (if snd x >? snd best then x else best) items'
  end.

(** [(dominant_post, dominant_share)] *)
Definition dominant (baseline_emissions : dict F) (baseline_total : F)
  : string * F :=
  match baseline_emissions with
  | first :: rest =>
      if baseline_total >? lit 0 then
        let '(dominant_post, dominant_value) := max_item first rest in
        (dominant_post, round (dominant_value / baseline_total * lit 100) 1)
      else ("", lit 0)
  | [] => ("", lit 0)
  end.

Definition mobility_posts : list string :=
  ["flight_short"; "flight_medium"; "flight_long";
   "car_diesel"; "car_essence"; "train_tgv"; "train_ter"].

Definition digital_posts : list string :=
  ["server"; "cloud"; "desktop"; "laptops";
   "screen"; "llm_usage"; "ai_training"].

(** [sum(v for k, v in emissions.items() if k in posts)] *)
Definition sum_over (posts : list string) (emissions : dict F) : F :=
  py_sum (values (filter (fun kv => mem (fst kv) posts) emissions)).

(** The [if]/[elif] chain assigning [baseline_profile]. *)
Definition classify_profile (baseline_total mobility_sum digital_sum : F)
  : string :=
  if baseline_total <? lit 100 then "low"
  else if digital_sum / baseline_total >? lit 0.6 then "digital"
  else if mobility_sum / baseline_total >? lit 0.6 then "mobility"
  else if ((digital_sum / baseline_total >? lit 0.3)
           && (mobility_sum / baseline_total >? lit 0.3))%bool then "mixed"
  else "other".

Definition baseline_profile_of (baseline_emissions : dict F)
    (baseline_total : F) : string :=
  classify_profile baseline_total
    (sum_over mobility_posts baseline_emissions)
    (sum_over digital_posts baseline_emissions).

(** The local helper [total(e)]. *)
Definition total (e : dict F) : F := round (py_sum (values e)) 2.

(** The comprehension building [reductions] from [totals]. *)
Definition reductions_of (baseline_total : F) (totals : dict F) : dict F :=
  map (fun kv =>
         (fst kv,
          if baseline_total >? lit 0
          then round ((baseline_total - snd kv) / baseline_total * lit 100) 2
          else lit 0))
      (filter (fun kv => negb (String.eqb (fst kv) "baseline")) totals).

(** [s.replace("_", " ")] *)
Fixpoint replace_underscores (s : string) : string :=
  match s with
  | EmptyString => EmptyString
  | String c s' =>
      String (if Ascii.eqb c "_" then " "%char else c) (replace_underscores s')
  end.

Section App.
Variable float_of_str : string -> option F.
(** [int()] on a string of the form. *)
Variable int_of_str : string -> option Z.

(** [int(raw_value)] *)
Definition py_int (r : raw) : outcome Z :=
  match r with
  | RawStr s =>
      match int_of_str s with
      | Some z => Returns z
      | None => Raises ValueError
      end
  | RawInt z => Returns z
  end.

(** [int(form_data.get("mission_utility", 0))] *)
Definition read_utility (form_data : dict string) : outcome Z :=
  py_int (form_get form_data "mission_utility" 0).

(** The route [/results], up to the rendering of the template. *)
Definition results (form_data : dict string) : outcome page :=
  let '(baseline_emissions, baseline_total) :=
    calculate_emissions float_of_str form_data in
  let baseline_total := round baseline_total 2 in
  match read_utility form_data with
  | Raises e => Raises e
  | Returns utility =>
      let '(dominant_post, dominant_share) :=
        dominant baseline_emissions baseline_total in
      let baseline_profile :=
        baseline_profile_of baseline_emissions baseline_total in
      let scenario_modal := scenario_modal_substitution baseline_emissions in
      let scenario_digital := scenario_digital_sobriety baseline_emissions in
      let scenario_utility :=
        scenario_utility_aware baseline_emissions utility in
      let totals :=
        [ ("baseline", baseline_total);
          ("modal", total scenario_modal);
          ("digital", total scenario_digital);
          ("utility", total scenario_utility) ] in
      let reductions := reductions_of baseline_total totals in
      Returns
        {| page_results := baseline_emissions;
           page_totals := totals;
           page_reductions := reductions;
           page_utility := utility;
           page_dominant_post := replace_underscores dominant_post;
           page_dominant_share := dominant_share;
           page_baseline_profile := baseline_profile |}
  end.
End App.
End Program.

Arguments page F : clear implicits.

(** [float(s)] on a decimal literal, in the arithmetic at hand. *)
Definition read_float {F : Type} {A : Arith F} (s : string) : option F :=
  option_map lit (parse_float s).

(* ================================================================== *)
(** * Vocabulary of the statements *)

(** ** The common shape of the substitution loops

    Each flight or car step moves an amount [reduction v] out of a source
    key holding a positive [v] and adds [realloc (reduction v)] to a
    destination key. *)

Section Shape.
Context {F : Type} {A : Arith F}.
Local Open Scope py_scope.

Definition shift (src dst : string) (reduction realloc : F -> F)
    (emissions : dict F) : dict F :=
  match get src emissions with
  | Some v =>
      if v >? lit 0 then
        let reduced := reduction v in
        let emissions := set src (v - reduced) emissions in
        set dst (get_default dst (lit 0) emissions + realloc reduced) emissions
      else emissions
  | None => emissions
  end.

(** [k] is present with a positive amount. *)
Definition positive_at (k : string) (e : dict F) : bool :=
  match get k e with
  | Some v => v >? lit 0
  | None => false
  end.

(** What a source key holds after a step: [after v] in place of a positive
    [v], the same entry otherwise. *)
Definition updated (after : F -> F) (entry : option F) : option F :=
  option_map (fun v => if v >? lit 0 then after v else v) entry.

(** A loop of such steps towards one destination: each rule is a source key
    with its reduction. *)
Definition shift_loop (dst : string) (realloc : F -> F)
    (rules : list (string * (F -> F))) (emissions : dict F) : dict F :=
  fold_left (fun e rule => shift (fst rule) dst (snd rule) realloc e)
            rules emissions.

(** The destination amount after one more source key: [acc + amount v]
    when [k] holds a positive [v] in [e], [acc] otherwise. *)
Definition gain (k : string) (amount : F -> F) (e : dict F) (acc : F) : F :=
  match get k e with
  | Some v => if v >? lit 0 then acc + amount v else acc
  | None => acc
  end.

(** What the destination of a loop holds at the end, starting from [start]
    and reading the source keys on [e]: the reallocated amounts are added
    one by one, in the order of the rules. *)
Definition received (realloc : F -> F) (rules : list (string * (F -> F)))
    (e : dict F) (start : F) : F :=
  fold_left (fun acc rule => gain (fst rule) (fun v => realloc (snd rule v)) e acc)
            rules start.

(** A rule keeps the amounts within [N]: from a positive source amount in
    [G] it leaves an amount in [N] on the source, and takes the destination
    from an amount in [N] to an amount in [N]. *)
Definition keeps_amounts (G N : F -> Prop) (realloc reduction : F -> F)
  : Prop :=
  forall v, G v -> (v >? lit 0) = true ->
    N (v - reduction v) /\ forall t, N t -> N (t + realloc (reduction v)).

(** The rules the four substitution loops of the engine follow. *)
Definition modal_flight_rules : list (string * (F -> F)) :=
  map (fun item => (fst item, fun v => v * snd item)) MAX_FLIGHT_SUBSTITUTION.

Definition modal_car_rules : list (string * (F -> F)) :=
  map (fun car => (car, fun v => v * CAR_SUBSTITUTION_RATE)) CAR_POSTS.

Definition utility_flight_rules (mobility_factor : F)
  : list (string * (F -> F)) :=
  map (fun item =>
         (fst item,
          fun v => v * py_min (snd item * mobility_factor) (snd item)))
      MAX_FLIGHT_SUBSTITUTION.

Definition utility_car_rules (mobility_factor : F)
  : list (string * (F -> F)) :=
  map (fun car => (car, fun v => v * CAR_SUBSTITUTION_RATE * mobility_factor))
      CAR_POSTS.

(** The share of a flight reduction that reappears on rail, and the share
    of a car reduction that reappears in carpooling. *)
Definition to_rail (reduced : F) : F := reduced * lit 0.1.
Definition to_carpool (reduced : F) : F := reduced.

(** The flight loop followed by the car loop, as both mobility scenarios
    run them. *)
Definition mobility_loops (flight_rules car_rules : list (string * (F -> F)))
    (emissions : dict F) : dict F :=
  shift_loop "carpool" to_carpool car_rules
    (shift_loop "train_tgv" to_rail flight_rules emissions).
End Shape.

(** Every amount of the mapping satisfies [P]. *)
Definition all_amounts {V : Type} (P : V -> Prop) (e : dict V) : Prop :=
  Forall (fun kv => P (snd kv)) e.

(** The strings of a list are pairwise distinct. *)
Fixpoint distinct (l : list string) : bool :=
  match l with
  | [] => true
  | k :: l' => (negb (mem k l') && distinct l')%bool
  end.

(** ** Amounts in exact arithmetic *)

(** An emissions mapping with exact amounts: activity key to kgCO2e. *)
Definition emissions_map : Type := dict Q.

(** Every amount of the mapping is non-negative. *)
Definition non_negative (e : emissions_map) : Prop :=
  Forall (fun kv => 0 <= snd kv) e.

(** [emissions.get(k, 0)] *)
Definition value (k : string) (e : emissions_map) : Q := get_default k 0 e.

(** The amount a step takes out of key [k]: [reduction v] when [k] holds a
    positive [v], nothing otherwise. *)
Definition shifted (reduction : Q -> Q) (k : string) (e : emissions_map) : Q :=
  match get k e with
  | Some v => if Qgt_bool v 0 then reduction v else 0
  | None => 0
  end.


(** A rule never takes more than the source holds, and gives back a
    non-negative amount that is at most what it took. *)
Definition sound_rule (realloc reduction : Q -> Q) : Prop :=
  forall v, 0 < v ->
    reduction v <= v /\ 0 <= realloc (reduction v) <= reduction v.

(** The pair [(digital_reduction, mobility_factor)] is that of the named
    tier of the table. *)
Definition in_tier (name : string) (parameters : Q * Q) : Prop :=
  match get name UTILITY_SCENARIO_LEVELS with
  | Some (_, digital_reduction, mobility_factor) =>
      fst parameters == digital_reduction /\ snd parameters == mobility_factor
  | None => False
  end.

(** Two lookups give the same amount, or both nothing. *)
Definition same_amount (a b : option Q) : Prop :=
  match a, b with
  | Some x, Some y => x == y
  | None, None => True
  | _, _ => False
  end.

(** Two mappings hold the same keys in the same order with equal amounts. *)
Definition same_mapping (e e' : emissions_map) : Prop :=
  Forall2 (fun a b => fst a = fst b /\ snd a == snd b) e e'.

(** ** Amounts in binary64 *)

(** [0 <= x], as Python tests it: [x] is a zero, a positive number or
    [+inf]. *)
Definition nonneg64 (x : spec_float) : Prop :=
  SFleb (S754_zero false) x = true.

(** Every amount of the mapping is non-negative. *)
Definition non_negative_binary64 (e : dict spec_float) : Prop :=
  all_amounts nonneg64 e.

(** A finite non-negative binary64 number: a zero, or a positive mantissa
    and an exponent within the format. *)
Definition amount64 (x : spec_float) : bool :=
  match x with
  | S754_zero _ => true
  | S754_finite false m e => bounded prec emax m e
  | _ => false
  end.

(** Every amount of the mapping is a finite non-negative number. *)
Definition finite_non_negative_binary64 (e : dict spec_float) : Prop :=
  all_amounts (fun x => amount64 x = true) e.

(** A positive float [c] with [c * den <= num]. *)
Definition at_most (num den : Z) (c : spec_float) : bool :=
  match c with
  | S754_finite false mc ec =>
      ((ec <=? 0) && (Zpos mc * den <=? num * 2 ^ (- ec)))%Z
  | _ => false
  end.

(** The float [w] is [+0] or a positive number at most [K * 2^eK]. *)
Definition below (w : spec_float) (K eK : Z) : Prop :=
  match w with
  | S754_zero false => True
  | S754_finite false m e => (e <= eK /\ Zpos m <= K * 2 ^ (eK - e))%Z
  | _ => False
  end.

(** The state of the right shift after [k] steps from the mantissa [m0]:
    the quotient by [2^k], with flags that are raised only when the
    division is not exact. *)
Definition shr_inv (m0 k : Z) (mrs : shr_record) : Prop :=
  shr_m mrs = (m0 / 2 ^ k)%Z
  /\ (shr_r mrs || shr_s mrs = true -> (m0 mod 2 ^ k)%Z <> 0%Z).

(* ================================================================== *)
(** * The rest of the program *)

(** ** The comparisons [<=] and [==] on floats *)

Class Compare (F : Type) : Type := {
  py_le : F -> F -> bool;
  py_eq : F -> F -> bool
}.


#[export] Instance binary64_compare : Compare spec_float | 10 := {|
  py_le := SFleb;
  py_eq := SFeqb
|}.

Section Rest.
Context {F : Type} {A : Arith F} {C : Compare F}.
Local Open Scope py_scope.

(* ================================================================== *)
(** ** calculations/categories.py *)

Definition EMISSION_CATEGORIES : dict string :=
  [ ("flight_short", "Mobility"); ("flight_medium", "Mobility");
    ("flight_long", "Mobility"); ("train_tgv", "Mobility");
    ("train_ter", "Mobility"); ("car_diesel", "Mobility");
    ("car_essence", "Mobility"); ("carpool", "Mobility");
    ("bus", "Mobility"); ("metro", "Mobility");
    ("electricity", "Energy"); ("gas", "Energy"); ("fioul", "Energy");
    ("heating_network", "Energy");
    ("laptops", "Digital"); ("desktop", "Digital"); ("screen", "Digital");
    ("server", "Digital"); ("cloud", "Digital"); ("video_conf", "Digital");
    ("email", "Digital"); ("llm_usage", "Digital");
    ("ai_training", "Digital");
    ("meat_meals", "Food"); ("white_meat_meals", "Food");
    ("veg_meals", "Food"); ("coffee", "Food");
    ("hotel_night", "Events & Accommodation");
    ("airbnb_night", "Events & Accommodation");
    ("conference_day", "Events & Accommodation");
    ("conference_meal", "Events & Accommodation") ].

(** [EMISSION_CATEGORIES.get(post, "Other")] *)
Definition category_of (post : string) : string :=
  get_default post "Other" EMISSION_CATEGORIES.

(** One turn of the loop of [aggregate_by_category], on [categories]. *)
Definition aggregate_step (categories : dict F) (item : string * F)
  : dict F :=
  let '(post, value) := item in
  if py_le value (lit 0) then categories
  else
    let category := category_of post in
    set category (get_default category (lit 0) categories + value) categories.

Definition aggregate_by_category (emissions_by_post : dict F) : dict F :=
  let categories := fold_left aggregate_step emissions_by_post [] in
  map (fun kv => (fst kv, round (snd kv) 2)) categories.

(* ================================================================== *)
(** ** calculations/scenarios/utils.py: [relative_share] *)


(* ================================================================== *)
(** ** app.py: the route [/export-pdf] *)

(** The keyword arguments handed to [generate_scar_pdf]. *)
Record report : Type := Report {
  report_totals : dict F;
  report_reductions : dict F;
  report_baseline_profile : string;
  report_dominant_post : string;
  report_dominant_share : F;
  report_utility : Z;
  report_emissions : dict F
}.

(** ["digital" if dominant_post in {...} else "other"] *)
Definition report_profile (dominant_post : string) : string :=
  if mem dominant_post ["server"; "cloud"; "desktop"; "laptops"]
  then "digital" else "other".

Section PdfExport.
Variable float_of_str : string -> option F.
Variable int_of_str : string -> option Z.

(** The route [/export-pdf], up to the call of [generate_scar_pdf]. *)
Definition export_pdf (form_data : dict string) : outcome report :=
  let '(baseline_emissions, baseline_total) :=
    calculate_emissions float_of_str form_data in
  let baseline_total := round baseline_total 2 in
  match read_utility int_of_str form_data with
  | Raises e => Raises e
  | Returns utility =>
      let scenario_modal := scenario_modal_substitution baseline_emissions in
      let scenario_digital := scenario_digital_sobriety baseline_emissions in
      let scenario_utility :=
        scenario_utility_aware baseline_emissions utility in
      let totals :=
        [ ("baseline", baseline_total);
          ("modal", round (py_sum (values scenario_modal)) 2);
          ("digital", round (py_sum (values scenario_digital)) 2);
          ("utility", round (py_sum (values scenario_utility)) 2) ] in
      let reductions := reductions_of baseline_total totals in
      let '(dominant_post, dominant_share) :=
        dominant baseline_emissions baseline_total in
      let baseline_profile := report_profile dominant_post in
      Returns
        {| report_totals := totals;
           report_reductions := reductions;
           report_baseline_profile := baseline_profile;
           report_dominant_post := replace_underscores dominant_post;
           report_dominant_share := dominant_share;
           report_utility := utility;
           report_emissions := baseline_emissions |}
  end.
End PdfExport.
End Rest.

Arguments report F : clear implicits.

(** ** Vocabulary of the further statements *)


(** The key a substitution loop adds at the end of the mapping: the
    destination, when it is absent and some source key is positive. *)
Definition added_key {F : Type} {A : Arith F} (dst : string)
    (sources : list string) (e : dict F) : list string :=
  if (existsb (fun k => positive_at k e) sources && negb (contains dst e))%bool
  then [dst] else [].

(** The posts [aggregate_by_category] counts in [category]: those with an
    amount that is not [<= 0], in the order of the mapping. *)
Definition counted_in {F : Type} {A : Arith F} {C : Compare F}
    (category : string) (emissions_by_post : dict F) : dict F :=
  filter (fun item =>
            (negb (py_le (snd item) (lit 0))
             && String.eqb (category_of (fst item)) category)%bool)
         emissions_by_post.

(** The five categories of [EMISSION_CATEGORIES]. *)
Definition CATEGORY_NAMES : list string :=
  ["Mobility"; "Energy"; "Digital"; "Food"; "Events & Accommodation"].

(* ================================================================== *)
(** * Properties *)

(** ** Comparisons *)

(** Reads the operations of the program in the exact arithmetic. *)
Ltac exact_arith := cbn [lit add sub mul div ltb round exact] in *.

Lemma Qlt_bool_iff (x y : Q) : Qlt_bool x y = true <-> x < y.
Proof.
  unfold Qlt_bool. rewrite negb_true_iff.
  split; intro H.
  - apply Qnot_le_lt. intro Hle. apply Qle_bool_iff in Hle. congruence.
  - destruct (Qle_bool y x) eqn:E; [|reflexivity].
    apply Qle_bool_iff in E. exfalso. apply (Qlt_not_le _ _ H E).
Qed.

Lemma Qlt_bool_false_iff (x y : Q) : Qlt_bool x y = false <-> y <= x.
Proof.
  unfold Qlt_bool. rewrite negb_false_iff. apply Qle_bool_iff.
Qed.

Lemma Qgt_bool_iff (x y : Q) : Qgt_bool x y = true <-> y < x.
Proof. apply Qlt_bool_iff. Qed.

Lemma Qgt_bool_false_iff (x y : Q) : Qgt_bool x y = false <-> x <= y.
Proof. apply Qlt_bool_false_iff. Qed.

(** Case analysis on a boolean comparison, with the order fact in hand. *)
Ltac case_gt x y :=
  let E := fresh "Hcmp" in
  destruct (Qgt_bool x y) eqn:E;
  [ apply Qgt_bool_iff in E | apply Qgt_bool_false_iff in E ].


Lemma py_min_le_l (a b : Q) : py_min a b <= a.
Proof.
  unfold py_min; exact_arith. destruct (Qlt_bool b a) eqn:E.
  - apply Qlt_bool_iff in E. apply Qlt_le_weak, E.
  - apply Qle_refl.
Qed.



(** ** Sums *)

Lemma fold_Qplus_acc (l : list Q) (a : Q) :
  fold_left Qplus l a == a + py_sum l.
Proof.
  unfold py_sum; exact_arith. revert a. induction l as [|x l IH]; intro a; simpl.
  - lra.
  - rewrite (IH (a + x)), (IH (0 + x)). lra.
Qed.

Lemma py_sum_nil : py_sum [] = 0.
Proof. reflexivity. Qed.

Lemma py_sum_cons (x : Q) (l : list Q) : py_sum (x :: l) == x + py_sum l.
Proof.
  unfold py_sum at 1; exact_arith. simpl fold_left.
  rewrite fold_Qplus_acc. lra.
Qed.

Lemma py_sum_app (l1 l2 : list Q) : py_sum (l1 ++ l2)%list == py_sum l1 + py_sum l2.
Proof.
  induction l1 as [|x l1 IH]; simpl.
  - rewrite py_sum_nil. lra.
  - rewrite !py_sum_cons, IH. lra.
Qed.


(** ** Dictionaries *)

Section DictFacts.
Context {V : Type}.
Implicit Types (d : dict V) (k : string) (v : V).

Lemma get_set_same k v d : get k (set k v d) = Some v.
Proof.
  induction d as [|[k' v'] d IH]; simpl.
  - now rewrite String.eqb_refl.
  - destruct (String.eqb k k') eqn:E; simpl; rewrite ?E, ?String.eqb_refl; auto.
Qed.

Lemma get_set_other k k' v d : k' <> k -> get k' (set k v d) = get k' d.
Proof.
  intro Hne. induction d as [|[k0 v0] d IH]; simpl.
  - apply String.eqb_neq in Hne. now rewrite Hne.
  - destruct (String.eqb k k0) eqn:E; simpl.
    + apply String.eqb_eq in E. subst k0.
      apply String.eqb_neq in Hne. now rewrite Hne.
    + now rewrite IH.
Qed.

Lemma contains_get k d : contains k d = true <-> exists v, get k d = Some v.
Proof.
  unfold contains. destruct (get k d); split; intro H;
    try discriminate; eauto. destruct H; discriminate.
Qed.

Lemma get_In k v d : get k d = Some v -> In (k, v) d.
Proof.
  induction d as [|[k' v'] d IH]; simpl; [discriminate|].
  destruct (String.eqb k k') eqn:E.
  - apply String.eqb_eq in E. subst. intros [= ->]. now left.
  - auto.
Qed.

Lemma get_None_keys k d : get k d = None <-> ~ In k (keys d).
Proof.
  induction d as [|[k' v'] d IH]; simpl; [tauto|].
  destruct (String.eqb k k') eqn:E.
  - apply String.eqb_eq in E. subst. split; [discriminate|]. intro H. elim H. now left.
  - apply String.eqb_neq in E. rewrite IH. split; intro H.
    + intros [H1|H1]; [congruence|tauto].
    + tauto.
Qed.

(** Keys stay distinct under assignment, as in a Python dictionary. *)
Lemma keys_set k v d :
  keys (set k v d) = if contains k d then keys d else (keys d ++ [k])%list.
Proof.
  unfold contains. induction d as [|[k' v'] d IH]; simpl; [reflexivity|].
  destruct (String.eqb k k') eqn:E; simpl.
  - apply String.eqb_eq in E. now subst.
  - rewrite IH. now destruct (get k d).
Qed.

Lemma NoDup_keys_set k v d : NoDup (keys d) -> NoDup (keys (set k v d)).
Proof.
  intro H. rewrite keys_set. unfold contains.
  destruct (get k d) eqn:E; [exact H|].
  apply get_None_keys in E.
  apply NoDup_rev in H. rewrite <- (rev_involutive (keys d ++ [k])%list).
  apply NoDup_rev. rewrite rev_app_distr. simpl. constructor; [|exact H].
  now rewrite <- in_rev.
Qed.
End DictFacts.

Lemma copy_emissions_id {F : Type} (e : dict F) : copy_emissions e = e.
Proof.
  unfold copy_emissions. induction e as [|[k v] e IH]; simpl; [reflexivity|].
  now rewrite IH.
Qed.

(** Assigning [v] to key [k] changes the sum of the values by [v] minus the
    amount [k] held before. *)
Lemma sum_set (k : string) (v : Q) (d : emissions_map) :
  py_sum (values (set k v d)) == py_sum (values d) - get_default k 0 d + v.
Proof.
  unfold get_default. induction d as [|[k' v'] d IH]; simpl.
  - rewrite py_sum_cons, py_sum_nil. lra.
  - destruct (String.eqb k k') eqn:E; simpl.
    + rewrite !py_sum_cons. lra.
    + rewrite !py_sum_cons, IH. lra.
Qed.




(** ** One substitution step *)

Section Shift.
Context {F : Type} {A : Arith F}.
Variables (src dst : string) (reduction realloc : F -> F).
Hypothesis src_dst : src <> dst.
Local Open Scope py_scope.

Local Abbreviation step := (shift src dst reduction realloc).

Lemma shift_absent e : get src e = None -> step e = e.
Proof. unfold shift. now intros ->. Qed.

Lemma shift_idle e : positive_at src e = false -> step e = e.
Proof.
  unfold positive_at, shift. destruct (get src e); [|reflexivity].
  now intros ->.
Qed.

Lemma shift_positive e v :
  get src e = Some v -> (v >? lit 0) = true ->
  step e =
    set dst (get_default dst (lit 0) (set src (v - reduction v) e)
             + realloc (reduction v))
        (set src (v - reduction v) e).
Proof. unfold shift. now intros -> ->. Qed.

Lemma get_shift_other e k : k <> src -> k <> dst -> get k (step e) = get k e.
Proof.
  intros Hs Hd. unfold shift.
  destruct (get src e) as [v|]; [|reflexivity].
  destruct (v >? lit 0); [|reflexivity].
  cbv zeta. now rewrite !get_set_other.
Qed.

Lemma get_shift_src e :
  get src (step e) = updated (fun v => v - reduction v) (get src e).
Proof.
  unfold shift, updated.
  destruct (get src e) as [v|] eqn:E; simpl; [|exact E].
  destruct (v >? lit 0); [|exact E].
  rewrite get_set_other by exact src_dst. apply get_set_same.
Qed.

Lemma get_shift_dst_idle e :
  positive_at src e = false -> get dst (step e) = get dst e.
Proof. intro H. now rewrite shift_idle. Qed.

Lemma contains_shift_dst e :
  contains dst (step e) = (contains dst e || positive_at src e)%bool.
Proof.
  unfold shift, positive_at.
  destruct (get src e) as [v|]; [|now rewrite orb_false_r].
  destruct (v >? lit 0); [|now rewrite orb_false_r].
  cbv zeta. unfold contains at 1. rewrite get_set_same. now rewrite orb_true_r.
Qed.

Lemma get_default_shift_dst e :
  get_default dst (lit 0) (step e) =
    gain src (fun v => realloc (reduction v)) e (get_default dst (lit 0) e).
Proof.
  unfold shift, gain.
  destruct (get src e) as [v|]; [|reflexivity].
  destruct (v >? lit 0); [|reflexivity].
  cbv zeta. unfold get_default at 1. rewrite get_set_same.
  unfold get_default.
  now rewrite (get_set_other src dst) by (intro; now apply src_dst).
Qed.

Lemma keys_shift e :
  keys (step e) =
    if (positive_at src e && negb (contains dst e))%bool
    then (keys e ++ [dst])%list else keys e.
Proof.
  unfold shift, positive_at.
  destruct (get src e) as [v|] eqn:E; [|reflexivity].
  destruct (v >? lit 0); [|reflexivity].
  cbv zeta. rewrite !keys_set. unfold contains.
  rewrite (get_set_other src dst) by (intro; now apply src_dst).
  rewrite E. now destruct (get dst e).
Qed.
End Shift.

(** A source key that is not positive keeps its entry; a positive one holds
    what the step leaves. *)
Lemma updated_idle {F : Type} {A : Arith F} (after : F -> F) (k : string)
    (e : dict F) :
  positive_at k e = false -> updated after (get k e) = get k e.
Proof.
  unfold positive_at, updated. destruct (get k e) as [v|]; [|reflexivity].
  simpl. now intros ->.
Qed.

Lemma updated_positive {F : Type} {A : Arith F} (after : F -> F) (k : string)
    (e : dict F) (v : F) :
  get k e = Some v -> ltb (lit 0) v = true ->
  updated after (get k e) = Some (after v).
Proof. intros -> Hv. unfold updated. simpl. now rewrite Hv. Qed.

(** *** In exact arithmetic *)

Section ShiftExact.
Variables (src dst : string) (reduction realloc : Q -> Q).
Hypothesis src_dst : src <> dst.

Local Abbreviation step := (shift src dst reduction realloc).

Lemma shift_exact e :
  step e =
    match get src e with
    | Some v =>
        if Qgt_bool v 0 then
          set dst (get_default dst 0 (set src (v - reduction v) e)
                   + realloc (reduction v))
              (set src (v - reduction v) e)
        else e
    | None => e
    end.
Proof. reflexivity. Qed.

Lemma value_shift_dst e :
  value dst (step e) == value dst e + shifted (fun v => realloc (reduction v)) src e.
Proof.
  rewrite shift_exact. unfold shifted, value, get_default.
  destruct (get src e) as [v|]; [|lra].
  destruct (Qgt_bool v 0); [|lra].
  rewrite get_set_same.
  rewrite (get_set_other src dst) by (intro; now apply src_dst).
  lra.
Qed.

(** The step changes the total by what the destination receives minus
    what the source gives. *)
Lemma sum_shift e :
  py_sum (values (step e)) ==
    py_sum (values e) - shifted reduction src e
    + shifted (fun v => realloc (reduction v)) src e.
Proof.
  rewrite shift_exact. unfold shifted.
  destruct (get src e) as [v|] eqn:E; [|lra].
  destruct (Qgt_bool v 0); [|lra].
  rewrite !sum_set. unfold get_default.
  rewrite (get_set_other src dst) by (intro; now apply src_dst).
  rewrite E.
  destruct (get dst e); lra.
Qed.


End ShiftExact.

(** ** A loop of substitution steps *)

Section ShiftLoop.
Context {F : Type} {A : Arith F}.
Variables (dst : string) (realloc : F -> F).
Implicit Types (rules : list (string * (F -> F))) (e : dict F).

Local Abbreviation loop := (shift_loop dst realloc).
Local Abbreviation sources rules := (map fst rules).

Lemma shift_loop_cons rule rules e :
  loop (rule :: rules) e =
    loop rules (shift (fst rule) dst (snd rule) realloc e).
Proof. reflexivity. Qed.

(** Keys that are neither a source nor the destination are not touched. *)
Lemma get_shift_loop_other rules e k :
  ~ In k (sources rules) -> k <> dst -> get k (loop rules e) = get k e.
Proof.
  revert e. induction rules as [|[s r] rules IH]; intros e Hk Hd.
  - reflexivity.
  - rewrite shift_loop_cons. simpl in Hk |- *.
    rewrite IH by tauto.
    apply get_shift_other; [|exact Hd]. intro; subst; tauto.
Qed.

(** A source key loses its own reduction, once. *)
Lemma get_shift_loop_src rules e src reduction :
  NoDup (sources rules) -> ~ In dst (sources rules) ->
  In (src, reduction) rules ->
  get src (loop rules e) =
    updated (fun v => sub v (reduction v)) (get src e).
Proof.
  revert e. induction rules as [|[s r] rules IH]; intros e Hnd Hdst Hin.
  - destruct Hin.
  - rewrite shift_loop_cons. simpl in *.
    inversion Hnd as [|? ? Hs Hnd']; subst.
    destruct Hin as [Heq|Hin].
    + injection Heq as -> ->.
      rewrite get_shift_loop_other; [|exact Hs|intro; subst; tauto].
      apply get_shift_src. intro; subst; tauto.
    + assert (Hsrc : src <> s).
      { intro; subst. apply Hs. apply (in_map fst) in Hin. exact Hin. }
      rewrite (IH _ Hnd'); [|tauto|exact Hin].
      rewrite get_shift_other; [reflexivity|exact Hsrc|].
      intro; subst. apply (in_map fst) in Hin. tauto.
Qed.

Lemma positive_sources_shift rules s r e :
  ~ In s (sources rules) -> ~ In dst (sources rules) ->
  existsb (fun rule => positive_at (fst rule) (shift s dst r realloc e)) rules
  = existsb (fun rule => positive_at (fst rule) e) rules.
Proof.
  induction rules as [|[s' r'] rules IH]; intros Hs Hd; [reflexivity|].
  simpl in *. rewrite IH by tauto. f_equal.
  unfold positive_at. rewrite get_shift_other; [reflexivity| |]; intro; subst; tauto.
Qed.

(** The destination exists afterwards when it existed before or when a
    source was positive. *)
Lemma contains_shift_loop_dst rules e :
  NoDup (sources rules) -> ~ In dst (sources rules) ->
  contains dst (loop rules e) =
    (contains dst e || existsb (fun rule => positive_at (fst rule) e) rules)%bool.
Proof.
  revert e. induction rules as [|[s r] rules IH]; intros e Hnd Hdst.
  - simpl. now rewrite orb_false_r.
  - rewrite shift_loop_cons. simpl in *.
    inversion Hnd as [|? ? Hs Hnd']; subst.
    rewrite IH by tauto. rewrite contains_shift_dst, <- orb_assoc. do 2 f_equal.
    apply positive_sources_shift; tauto.
Qed.

Lemma received_ext rules e e' start :
  (forall k, In k (sources rules) -> get k e' = get k e) ->
  received realloc rules e' start = received realloc rules e start.
Proof.
  unfold received. revert start.
  induction rules as [|[s r] rules IH]; intros start H; [reflexivity|].
  simpl in *. unfold gain at 2 4. rewrite (H s) by now left.
  apply IH. intros k Hk. apply H. now right.
Qed.

(** The destination ends with the reallocated parts added one by one. *)
Lemma get_default_shift_loop_dst rules e :
  NoDup (sources rules) -> ~ In dst (sources rules) ->
  get_default dst (lit 0) (loop rules e) =
    received realloc rules e (get_default dst (lit 0) e).
Proof.
  revert e. induction rules as [|[s r] rules IH]; intros e Hnd Hdst.
  - reflexivity.
  - rewrite shift_loop_cons. simpl in Hnd, Hdst |- *.
    inversion Hnd as [|? ? Hs Hnd']; subst.
    rewrite IH by tauto.
    rewrite get_default_shift_dst by (intro; subst; tauto).
    unfold received at 2. cbn [fold_left fst snd].
    apply received_ext. intros k Hk.
    apply get_shift_other; intro; subst; tauto.
Qed.

(** When no source is positive the loop does nothing. *)
Lemma shift_loop_idle rules e :
  existsb (fun rule => positive_at (fst rule) e) rules = false ->
  loop rules e = e.
Proof.
  induction rules as [|[s r] rules IH]; intro H; [reflexivity|].
  rewrite shift_loop_cons. simpl in *.
  apply orb_false_iff in H as [H1 H2].
  rewrite shift_idle by exact H1. now apply IH.
Qed.

End ShiftLoop.

(** *** In exact arithmetic *)

Section ShiftLoopExact.
Variables (dst : string) (realloc : Q -> Q).
Implicit Types (rules : list (string * (Q -> Q))) (e : emissions_map).

Local Abbreviation loop := (shift_loop dst realloc).
Local Abbreviation sources rules := (map fst rules).

(** Reading a source amount is not disturbed by a step on another key. *)
Lemma shifted_shift_other f k s r e :
  k <> s -> k <> dst ->
  shifted f k (shift s dst r realloc e) = shifted f k e.
Proof. intros Hs Hd. unfold shifted. now rewrite get_shift_other. Qed.

Lemma total_shifted_shift (g : (Q -> Q) -> Q -> Q) rules s r e :
  ~ In s (sources rules) -> ~ In dst (sources rules) ->
  map (fun rule => shifted (g (snd rule)) (fst rule)
                     (shift s dst r realloc e)) rules
  = map (fun rule => shifted (g (snd rule)) (fst rule) e) rules.
Proof.
  intros Hs Hd. apply map_ext_in. intros [k f] Hin. simpl.
  apply (in_map fst) in Hin. simpl in Hin.
  apply shifted_shift_other; intro; subst; tauto.
Qed.

(** The destination receives the reallocated part of every reduction. *)
Lemma value_shift_loop_dst rules e :
  NoDup (sources rules) -> ~ In dst (sources rules) ->
  value dst (loop rules e) ==
    value dst e
    + py_sum (map (fun rule =>
                     shifted (fun v => realloc (snd rule v)) (fst rule) e)
                  rules).
Proof.
  revert e. induction rules as [|[s r] rules IH]; intros e Hnd Hdst.
  - simpl. rewrite py_sum_nil. lra.
  - rewrite shift_loop_cons. simpl in *.
    inversion Hnd as [|? ? Hs Hnd']; subst.
    rewrite IH by tauto.
    rewrite (total_shifted_shift (fun f v => realloc (f v))) by tauto.
    rewrite value_shift_dst by (intro; subst; tauto).
    rewrite py_sum_cons. lra.
Qed.


Lemma sum_shift_loop_le rules e :
  ~ In dst (sources rules) ->
  Forall (fun rule => sound_rule realloc (snd rule)) rules ->
  py_sum (values (loop rules e)) <= py_sum (values e).
Proof.
  revert e. induction rules as [|[s r] rules IH]; intros e Hdst Hok.
  - apply Qle_refl.
  - rewrite shift_loop_cons. simpl in Hdst. inversion Hok as [|? ? Hr Hok']; subst.
    simpl in Hr |- *.
    eapply Qle_trans; [apply IH; [tauto|exact Hok']|].
    rewrite sum_shift by (intro; subst; tauto).
    unfold shifted. destruct (get s e) as [v|]; [|lra].
    case_gt v 0; [|lra].
    destruct (Hr v Hcmp) as [? [? ?]]. lra.
Qed.
End ShiftLoopExact.

(** ** The proportional cut on digital posts *)

Section Digital.
Context {F : Type} {A : Arith F}.
Variable reduction : F.
Implicit Types (e : dict F) (post k : string).
Local Open Scope py_scope.

Local Abbreviation cut := (digital_step reduction).

Lemma digital_step_idle e post : positive_at post e = false -> cut e post = e.
Proof.
  unfold positive_at, digital_step. destruct (get post e); [|reflexivity].
  now intros ->.
Qed.

Lemma get_digital_step_other e post k :
  k <> post -> get k (cut e post) = get k e.
Proof.
  intro Hk. unfold digital_step.
  destruct (get post e) as [v|]; [|reflexivity].
  destruct (v >? lit 0); [|reflexivity].
  now apply get_set_other.
Qed.

Lemma get_digital_step_same e post :
  get post (cut e post) =
    updated (fun v => v * (lit 1 - reduction)) (get post e).
Proof.
  unfold digital_step, updated.
  destruct (get post e) as [v|] eqn:E; simpl; [|exact E].
  destruct (v >? lit 0); [|exact E].
  apply get_set_same.
Qed.

Lemma keys_digital_step e post : keys (cut e post) = keys e.
Proof.
  unfold digital_step.
  destruct (get post e) as [v|] eqn:E; [|reflexivity].
  destruct (v >? lit 0); [|reflexivity].
  rewrite keys_set. unfold contains. now rewrite E.
Qed.

Lemma get_digital_loop_other posts e k :
  ~ In k posts -> get k (fold_left cut posts e) = get k e.
Proof.
  revert e. induction posts as [|p posts IH]; intros e Hk; simpl in *.
  - reflexivity.
  - rewrite IH by tauto. apply get_digital_step_other. intro; subst; tauto.
Qed.

Lemma get_digital_loop_in posts e k :
  NoDup posts -> In k posts ->
  get k (fold_left cut posts e) =
    updated (fun v => v * (lit 1 - reduction)) (get k e).
Proof.
  revert e. induction posts as [|p posts IH]; intros e Hnd Hin; simpl in *.
  - destruct Hin.
  - inversion Hnd as [|? ? Hp Hnd']; subst. destruct Hin as [->|Hin].
    + rewrite get_digital_loop_other by exact Hp. apply get_digital_step_same.
    + rewrite IH by assumption.
      rewrite get_digital_step_other; [reflexivity|]. intro; subst; tauto.
Qed.

Lemma keys_digital_loop posts e : keys (fold_left cut posts e) = keys e.
Proof.
  revert e. induction posts as [|p posts IH]; intro e; simpl; [reflexivity|].
  rewrite IH. apply keys_digital_step.
Qed.

End Digital.

(** *** In exact arithmetic *)

Section DigitalExact.
Variable reduction : Q.
Implicit Types (e : emissions_map) (post k : string).

Local Abbreviation cut := (digital_step reduction).




End DigitalExact.

(** ** The scenarios as compositions of loops *)

Lemma scenario_modal_substitution_loops {F : Type} {A : Arith F}
    (baseline : dict F) :
  scenario_modal_substitution baseline =
    mobility_loops modal_flight_rules modal_car_rules baseline.
Proof.
  unfold scenario_modal_substitution. rewrite copy_emissions_id.
  cbv [mobility_loops shift_loop modal_car_rules modal_flight_rules CAR_POSTS
       MAX_FLIGHT_SUBSTITUTION map fold_left fst snd
       modal_car_step modal_flight_step shift to_rail to_carpool].
  reflexivity.
Qed.

Lemma scenario_digital_sobriety_loop {F : Type} {A : Arith F}
    (baseline : dict F) :
  scenario_digital_sobriety baseline =
    fold_left (digital_step MAX_DIGITAL_REDUCTION) DIGITAL_SOBRIETY_POSTS baseline.
Proof.
  unfold scenario_digital_sobriety. now rewrite copy_emissions_id.
Qed.

Lemma scenario_utility_aware_loops {F : Type} {A : Arith F}
    (baseline : dict F) (utility : Z) :
  scenario_utility_aware baseline utility =
    let digital_reduction := fst (utility_parameters utility) in
    let mobility_factor := snd (utility_parameters utility) in
    mobility_loops (utility_flight_rules mobility_factor)
                   (utility_car_rules mobility_factor)
      (fold_left (digital_step digital_reduction) DIGITAL_SOBRIETY_POSTS
                 baseline).
Proof.
  unfold scenario_utility_aware. rewrite copy_emissions_id.
  destruct (utility_parameters utility) as [d m].
  cbv [mobility_loops shift_loop utility_car_rules utility_flight_rules CAR_POSTS
       MAX_FLIGHT_SUBSTITUTION map fold_left fst snd
       utility_car_step utility_flight_step shift to_rail to_carpool].
  reflexivity.
Qed.



(** Side conditions on the rule tables, settled by computation. *)
Lemma flight_sources :
  map fst MAX_FLIGHT_SUBSTITUTION = ["flight_short"; "flight_medium"; "flight_long"].
Proof. reflexivity. Qed.

Lemma not_In_strings_dec (k : string) (l : list string) :
  mem k l = false -> ~ In k l.
Proof.
  unfold mem. intros H Hin.
  assert (existsb (String.eqb k) l = true); [|congruence].
  apply existsb_exists. exists k. split; [exact Hin|apply String.eqb_refl].
Qed.


Lemma distinct_NoDup (l : list string) : distinct l = true -> NoDup l.
Proof.
  induction l as [|k l IH]; simpl; intro H; constructor.
  - apply andb_true_iff in H as [H _]. apply negb_true_iff in H.
    now apply not_In_strings_dec.
  - apply andb_true_iff in H as [_ H]. now apply IH.
Qed.

Lemma NoDup_DIGITAL_SOBRIETY_POSTS : NoDup DIGITAL_SOBRIETY_POSTS.
Proof. now apply distinct_NoDup. Qed.


(** ** Reading the rule tables *)





Lemma positive_sources_ext {F : Type} {A : Arith F}
    (rules : list (string * (F -> F))) (e e' : dict F) :
  (forall k, In k (map fst rules) -> get k e' = get k e) ->
  existsb (fun rule => positive_at (fst rule) e') rules
  = existsb (fun rule => positive_at (fst rule) e) rules.
Proof.
  intro H. induction rules as [|[k f] rules IH]; simpl; [reflexivity|].
  unfold positive_at at 1 3. simpl in H. rewrite H by now left.
  f_equal. apply IH. intros k' Hk'. apply H. now right.
Qed.



Ltac other_key := solve [ discriminate | simpl; intuition discriminate ].

(** ** The two mobility loops, key by key *)

Section Mobility.
Context {F : Type} {A : Arith F}.
Variables flight_rules car_rules : list (string * (F -> F)).
Hypothesis flight_keys :
  map fst flight_rules = map fst (MAX_FLIGHT_SUBSTITUTION (A:=A)).
Hypothesis car_keys : map fst car_rules = CAR_POSTS.
Variable e : dict F.

Local Abbreviation after_flights :=
  (shift_loop "train_tgv" to_rail flight_rules e).
Local Abbreviation out := (mobility_loops flight_rules car_rules e).

Lemma NoDup_flight_keys : NoDup (map fst flight_rules).
Proof. rewrite flight_keys. now apply distinct_NoDup. Qed.

Lemma NoDup_car_keys : NoDup (map fst car_rules).
Proof. rewrite car_keys. now apply distinct_NoDup. Qed.

Lemma flight_key_cases k :
  In k (map fst flight_rules) ->
  k = "flight_short" \/ k = "flight_medium" \/ k = "flight_long".
Proof. rewrite flight_keys. simpl. intuition auto. Qed.

Lemma car_key_cases k :
  In k (map fst car_rules) -> k = "car_diesel" \/ k = "car_essence".
Proof. rewrite car_keys. simpl. intuition auto. Qed.

Lemma mobility_sources k :
  In k MOBILITY_SUBSTITUTION_POSTS <->
  In k (map fst flight_rules) \/ In k (map fst car_rules).
Proof. rewrite flight_keys, car_keys. simpl. intuition auto. Qed.

Ltac not_a_source :=
  let H := fresh in
  intro H;
  first [ apply flight_key_cases in H | apply car_key_cases in H ];
  intuition (subst; discriminate).

Lemma mobility_get_flight flight reduction :
  In (flight, reduction) flight_rules ->
  get flight out =
    updated (fun v => sub v (reduction v)) (get flight e).
Proof.
  intro Hin. unfold mobility_loops.
  assert (Hk : In flight (map fst flight_rules))
    by (apply (in_map fst) in Hin; exact Hin).
  apply flight_key_cases in Hk.
  rewrite get_shift_loop_other.
  - apply get_shift_loop_src; [exact NoDup_flight_keys|not_a_source|exact Hin].
  - intro H. apply car_key_cases in H. intuition (subst; discriminate).
  - intuition (subst; discriminate).
Qed.

Lemma get_after_flights k :
  k <> "train_tgv" -> ~ In k (map fst flight_rules) ->
  get k after_flights = get k e.
Proof. intros H1 H2. now apply get_shift_loop_other. Qed.

Lemma get_car_after_flights k :
  In k (map fst car_rules) -> get k after_flights = get k e.
Proof.
  intro H. apply car_key_cases in H.
  apply get_after_flights; [|not_a_source]; intuition (subst; discriminate).
Qed.

Lemma mobility_get_car car reduction :
  In (car, reduction) car_rules ->
  get car out =
    updated (fun v => sub v (reduction v)) (get car e).
Proof.
  intro Hin. unfold mobility_loops.
  assert (Hk : In car (map fst car_rules))
    by (apply (in_map fst) in Hin; exact Hin).
  rewrite (get_shift_loop_src "carpool" to_carpool car_rules after_flights
             car reduction);
    [|exact NoDup_car_keys|not_a_source|exact Hin].
  now rewrite get_car_after_flights.
Qed.

Lemma mobility_get_other k :
  ~ In k MOBILITY_SUBSTITUTION_POSTS -> k <> "train_tgv" -> k <> "carpool" ->
  get k out = get k e.
Proof.
  intros Hk Ht Hc. rewrite mobility_sources in Hk. unfold mobility_loops.
  rewrite !get_shift_loop_other; tauto.
Qed.

Lemma mobility_received_train :
  get_default "train_tgv" (lit 0) out =
    received to_rail flight_rules e (get_default "train_tgv" (lit 0) e).
Proof.
  unfold mobility_loops, get_default at 1.
  rewrite get_shift_loop_other; [|not_a_source|discriminate].
  fold (get_default "train_tgv" (lit 0) after_flights).
  apply get_default_shift_loop_dst; [exact NoDup_flight_keys|not_a_source].
Qed.

Lemma mobility_received_carpool :
  get_default "carpool" (lit 0) out =
    received to_carpool car_rules e (get_default "carpool" (lit 0) e).
Proof.
  unfold mobility_loops.
  rewrite get_default_shift_loop_dst; [|exact NoDup_car_keys|not_a_source].
  rewrite (received_ext to_carpool car_rules e after_flights _
             get_car_after_flights).
  unfold get_default.
  rewrite (get_shift_loop_other "train_tgv"); [reflexivity|not_a_source|discriminate].
Qed.

Lemma mobility_contains_train :
  contains "train_tgv" out =
    (contains "train_tgv" e
     || existsb (fun rule => positive_at (fst rule) e) flight_rules)%bool.
Proof.
  unfold mobility_loops, contains at 1.
  rewrite get_shift_loop_other; [|not_a_source|discriminate].
  fold (contains "train_tgv" after_flights).
  apply contains_shift_loop_dst; [exact NoDup_flight_keys|not_a_source].
Qed.

Lemma mobility_contains_carpool :
  contains "carpool" out =
    (contains "carpool" e
     || existsb (fun rule => positive_at (fst rule) e) car_rules)%bool.
Proof.
  unfold mobility_loops.
  rewrite contains_shift_loop_dst; [|exact NoDup_car_keys|not_a_source].
  rewrite (positive_sources_ext car_rules e after_flights get_car_after_flights).
  unfold contains.
  rewrite (get_shift_loop_other "train_tgv"); [reflexivity|not_a_source|discriminate].
Qed.



End Mobility.

(** *** In exact arithmetic *)

Section MobilityExact.
Variables flight_rules car_rules : list (string * (Q -> Q)).
Hypothesis flight_keys :
  map fst flight_rules = map fst (MAX_FLIGHT_SUBSTITUTION (A:=exact)).
Hypothesis car_keys : map fst car_rules = CAR_POSTS.
Variable e : emissions_map.

Local Abbreviation after_flights :=
  (shift_loop "train_tgv" to_rail flight_rules e).
Local Abbreviation out := (mobility_loops flight_rules car_rules e).

Ltac not_a_source :=
  let H := fresh in
  intro H;
  first [ apply (flight_key_cases _ flight_keys) in H
        | apply (car_key_cases _ car_keys) in H ];
  intuition (subst; discriminate).




Lemma sum_mobility_loops_le :
  Forall (fun rule => sound_rule to_rail (snd rule)) flight_rules ->
  Forall (fun rule => sound_rule to_carpool (snd rule)) car_rules ->
  py_sum (values out) <= py_sum (values e).
Proof.
  intros Hf Hc. unfold mobility_loops.
  eapply Qle_trans.
  - apply sum_shift_loop_le; [not_a_source|exact Hc].
  - apply sum_shift_loop_le; [not_a_source|exact Hf].
Qed.
End MobilityExact.

(** ** The iteration order of the sets

    The engine iterates over two set literals, whose order Python does not
    fix.  The loops give the same mapping in every order: the same keys in
    the same places, with equal amounts. *)

Lemma py_sum_Permutation (l l' : list Q) :
  Permutation l l' -> py_sum l == py_sum l'.
Proof.
  induction 1 as [|x l l' _ IH|x y l|l l' l'' _ IH1 _ IH2].
  - reflexivity.
  - rewrite !py_sum_cons, IH. reflexivity.
  - rewrite !py_sum_cons. lra.
  - now rewrite IH1.
Qed.

Lemma existsb_Permutation {A : Type} (f : A -> bool) (l l' : list A) :
  Permutation l l' -> existsb f l = existsb f l'.
Proof.
  induction 1 as [|x l l' _ IH|x y l|l l' l'' _ IH1 _ IH2]; simpl.
  - reflexivity.
  - now rewrite IH.
  - now destruct (f x), (f y).
  - now rewrite IH1.
Qed.

Lemma same_amount_refl (a : option Q) : same_amount a a.
Proof. destruct a; simpl; [reflexivity|exact I]. Qed.

(** Mappings with the same distinct keys and the same amount under every
    key are the same mapping. *)
Lemma same_mapping_intro (e e' : emissions_map) :
  keys e = keys e' -> NoDup (keys e) ->
  (forall k, same_amount (get k e) (get k e')) ->
  same_mapping e e'.
Proof.
  revert e'. induction e as [|[k v] e IH]; intros [|[k' v'] e'] Hk Hnd Hget;
    try discriminate.
  - constructor.
  - simpl in Hk. injection Hk as <- Hk.
    inversion Hnd as [|? ? Hfresh Hnd']; subst.
    constructor.
    + split; [reflexivity|]. specialize (Hget k). simpl in Hget.
      now rewrite String.eqb_refl in Hget.
    + apply IH; [exact Hk|exact Hnd'|]. intro k0.
      destruct (String.eqb k0 k) eqn:E.
      * apply String.eqb_eq in E. subst k0.
        assert (H1 : get k e = None) by now apply get_None_keys.
        assert (H2 : get k e' = None)
          by (apply get_None_keys; now rewrite <- Hk).
        rewrite H1, H2. exact I.
      * specialize (Hget k0). simpl in Hget. now rewrite E in Hget.
Qed.

Section AnyOrder.
Variables (dst : string) (realloc : Q -> Q).
Implicit Types (rules : list (string * (Q -> Q))) (e : emissions_map).

Local Abbreviation loop := (shift_loop dst realloc).
Local Abbreviation sources rules := (map fst rules).

Lemma keys_shift_loop rules e :
  NoDup (sources rules) -> ~ In dst (sources rules) ->
  keys (loop rules e) =
    if (existsb (fun rule => positive_at (fst rule) e) rules
        && negb (contains dst e))%bool
    then (keys e ++ [dst])%list else keys e.
Proof.
  revert e. induction rules as [|[s r] rules IH]; intros e Hnd Hdst.
  - reflexivity.
  - rewrite shift_loop_cons. simpl in Hnd, Hdst |- *.
    inversion Hnd as [|? ? Hs Hnd']; subst.
    rewrite IH by tauto.
    rewrite keys_shift by (intro; subst; tauto).
    rewrite positive_sources_shift by tauto.
    rewrite contains_shift_dst.
    destruct (positive_at s e), (contains dst e),
      (existsb (fun rule => positive_at (fst rule) e) rules); reflexivity.
Qed.

Lemma get_shift_loop_any_order rules rules' e k :
  Permutation rules rules' ->
  NoDup (sources rules) -> ~ In dst (sources rules) ->
  same_amount (get k (loop rules e)) (get k (loop rules' e)).
Proof.
  intros Hp Hnd Hdst.
  assert (Hp' : Permutation (sources rules) (sources rules'))
    by now apply Permutation_map.
  assert (Hnd' : NoDup (sources rules'))
    by now apply (Permutation_NoDup Hp').
  assert (Hdst' : ~ In dst (sources rules')).
  { intro H. apply Hdst. eapply Permutation_in; [symmetry; exact Hp'|exact H]. }
  destruct (String.eqb k dst) eqn:Ed.
  - apply String.eqb_eq in Ed. subst k.
    pose proof (contains_shift_loop_dst dst realloc rules e Hnd Hdst) as C.
    pose proof (contains_shift_loop_dst dst realloc rules' e Hnd' Hdst') as C'.
    pose proof (value_shift_loop_dst dst realloc rules e Hnd Hdst) as V.
    pose proof (value_shift_loop_dst dst realloc rules' e Hnd' Hdst') as V'.
    rewrite <- (existsb_Permutation _ _ _ Hp) in C'.
    rewrite <- (py_sum_Permutation _ _
                  (Permutation_map
                     (fun rule => shifted (fun v => realloc (snd rule v))
                                          (fst rule) e) Hp)) in V'.
    rewrite <- C in C'. rewrite <- V in V'.
    unfold contains, value, get_default in *.
    destruct (get dst (loop rules e)), (get dst (loop rules' e));
      simpl; try discriminate; [symmetry; exact V'|exact I].
  - apply String.eqb_neq in Ed.
    destruct (in_dec string_dec k (sources rules)) as [Hin|Hout].
    + apply in_map_iff in Hin as [[k' red] [Hfst Hin]]. simpl in Hfst. subst k'.
      rewrite (get_shift_loop_src dst realloc rules e k red Hnd Hdst Hin).
      rewrite (get_shift_loop_src dst realloc rules' e k red Hnd' Hdst').
      * apply same_amount_refl.
      * eapply Permutation_in; [exact Hp|exact Hin].
    + rewrite !get_shift_loop_other; try assumption.
      * apply same_amount_refl.
      * intro H. apply Hout. eapply Permutation_in; [symmetry; exact Hp'|exact H].
Qed.

Lemma shift_loop_any_order rules rules' e :
  Permutation rules rules' ->
  NoDup (sources rules) -> ~ In dst (sources rules) ->
  NoDup (keys e) ->
  same_mapping (loop rules e) (loop rules' e).
Proof.
  intros Hp Hnd Hdst He.
  assert (Hp' : Permutation (sources rules) (sources rules'))
    by now apply Permutation_map.
  assert (Hk : keys (loop rules e) = keys (loop rules' e)).
  { rewrite !keys_shift_loop; try assumption.
    - now rewrite (existsb_Permutation _ _ _ Hp).
    - now apply (Permutation_NoDup Hp').
    - intro H. apply Hdst. eapply Permutation_in; [symmetry; exact Hp'|exact H]. }
  apply same_mapping_intro; [exact Hk| |].
  - rewrite keys_shift_loop by assumption.
    destruct (_ && _)%bool eqn:E; [|exact He].
    apply andb_true_iff in E as [_ E]. apply negb_true_iff in E.
    unfold contains in E. destruct (get dst e) eqn:G; [discriminate|].
    apply get_None_keys in G.
    apply NoDup_rev in He. rewrite <- (rev_involutive (keys e ++ [dst])%list).
    apply NoDup_rev. rewrite rev_app_distr. simpl. constructor; [|exact He].
    now rewrite <- in_rev.
  - intro k. now apply get_shift_loop_any_order.
Qed.
End AnyOrder.

(** The car loops of both scenarios, with the two cars in the other order. *)
Lemma modal_car_loop_any_order (e : emissions_map) :
  NoDup (keys e) ->
  same_mapping (fold_left modal_car_step ["car_diesel"; "car_essence"] e)
               (fold_left modal_car_step ["car_essence"; "car_diesel"] e).
Proof.
  intro He.
  apply (shift_loop_any_order "carpool" to_carpool
           modal_car_rules (rev modal_car_rules) e).
  - apply Permutation_rev.
  - now apply distinct_NoDup.
  - simpl. intuition discriminate.
  - exact He.
Qed.

Lemma utility_car_loop_any_order (mobility_factor : Q) (e : emissions_map) :
  NoDup (keys e) ->
  same_mapping
    (fold_left (utility_car_step mobility_factor) ["car_diesel"; "car_essence"] e)
    (fold_left (utility_car_step mobility_factor) ["car_essence"; "car_diesel"] e).
Proof.
  intro He.
  apply (shift_loop_any_order "carpool" to_carpool
           (utility_car_rules mobility_factor)
           (rev (utility_car_rules mobility_factor)) e).
  - apply Permutation_rev.
  - now apply distinct_NoDup.
  - simpl. intuition discriminate.
  - exact He.
Qed.

(** ** The iteration order in any arithmetic

    The loop over the digital posts gives the same mapping in every order.
    Visiting the two cars in the other order changes nothing but the order
    in which [carpool] receives their reductions. *)

(** Mappings with the same distinct keys and the same entry under every
    key are equal. *)
Lemma dict_ext {V : Type} (d d' : dict V) :
  keys d = keys d' -> NoDup (keys d) ->
  (forall k, get k d = get k d') -> d = d'.
Proof.
  revert d'. induction d as [|[k v] d IH]; intros [|[k' v'] d'] Hk Hnd Hget;
    try discriminate.
  - reflexivity.
  - simpl in Hk. injection Hk as <- Hk.
    inversion Hnd as [|? ? Hfresh Hnd']; subst.
    pose proof (Hget k) as Hv. simpl in Hv. rewrite String.eqb_refl in Hv.
    injection Hv as <-.
    f_equal. apply IH; [exact Hk|exact Hnd'|]. intro k0.
    destruct (String.eqb k0 k) eqn:E.
    + apply String.eqb_eq in E. subst k0.
      assert (H1 : get k d = None) by now apply get_None_keys.
      assert (H2 : get k d' = None)
        by (apply get_None_keys; now rewrite <- Hk).
      now rewrite H1, H2.
    + specialize (Hget k0). simpl in Hget. now rewrite E in Hget.
Qed.

Section OtherOrder.
Context {F : Type} {A : Arith F}.
Local Open Scope py_scope.

Lemma digital_loop_any_order (reduction : F) (posts : list string)
    (e : dict F) :
  Permutation DIGITAL_SOBRIETY_POSTS posts -> NoDup (keys e) ->
  fold_left (digital_step reduction) posts e
  = fold_left (digital_step reduction) DIGITAL_SOBRIETY_POSTS e.
Proof.
  intros Hp He.
  assert (Hnd : NoDup posts)
    by (apply (Permutation_NoDup Hp); exact NoDup_DIGITAL_SOBRIETY_POSTS).
  apply dict_ext.
  - now rewrite !keys_digital_loop.
  - now rewrite keys_digital_loop.
  - intro k.
    destruct (in_dec string_dec k DIGITAL_SOBRIETY_POSTS) as [Hin|Hout].
    + rewrite !get_digital_loop_in;
        [reflexivity|exact NoDup_DIGITAL_SOBRIETY_POSTS|exact Hin|exact Hnd|].
      eapply Permutation_in; [exact Hp|exact Hin].
    + rewrite !get_digital_loop_other; [reflexivity|exact Hout|].
      intro H. apply Hout. eapply Permutation_in; [symmetry; exact Hp|exact H].
Qed.

Lemma get_shift_loop_rev (dst : string) (realloc : F -> F)
    (rules : list (string * (F -> F))) (e : dict F) (k : string) :
  NoDup (map fst rules) -> ~ In dst (map fst rules) -> k <> dst ->
  get k (shift_loop dst realloc (rev rules) e)
  = get k (shift_loop dst realloc rules e).
Proof.
  intros Hnd Hdst Hk.
  assert (Hnd' : NoDup (map fst (rev rules)))
    by (rewrite map_rev; now apply NoDup_rev).
  assert (Hdst' : ~ In dst (map fst (rev rules)))
    by (rewrite map_rev, <- in_rev; exact Hdst).
  destruct (in_dec string_dec k (map fst rules)) as [Hin | Hout].
  - apply in_map_iff in Hin as [[k' r] [Hfst Hin]]. simpl in Hfst. subst k'.
    rewrite (get_shift_loop_src dst realloc rules e k r Hnd Hdst Hin).
    apply get_shift_loop_src; [exact Hnd'|exact Hdst'|].
    now apply in_rev in Hin.
  - rewrite !get_shift_loop_other; try assumption; [reflexivity|].
    now rewrite map_rev, <- in_rev.
Qed.

Lemma car_loop_other_order (rate : F -> F) (e : dict F) :
  let rules := map (fun car => (car, rate)) CAR_POSTS in
  let other := shift_loop "carpool" to_carpool (rev rules) e in
  (forall k, k <> "carpool" ->
     get k other = get k (shift_loop "carpool" to_carpool rules e))
  /\ get_default "carpool" (lit 0) other =
       gain "car_diesel" rate e
         (gain "car_essence" rate e (get_default "carpool" (lit 0) e)).
Proof.
  cbv zeta. split.
  - intros k Hk. apply get_shift_loop_rev; [|simpl; intuition discriminate|exact Hk].
    now apply distinct_NoDup.
  - rewrite get_default_shift_loop_dst; [reflexivity| |simpl; intuition discriminate].
    now apply distinct_NoDup.
Qed.

Lemma modal_car_loop_other_order (e : dict F) :
  let rate := fun v => v * CAR_SUBSTITUTION_RATE in
  let other := fold_left modal_car_step ["car_essence"; "car_diesel"] e in
  (forall k, k <> "carpool" ->
     get k other = get k (fold_left modal_car_step CAR_POSTS e))
  /\ get_default "carpool" (lit 0) other =
       gain "car_diesel" rate e
         (gain "car_essence" rate e (get_default "carpool" (lit 0) e)).
Proof. exact (car_loop_other_order (fun v => v * CAR_SUBSTITUTION_RATE) e). Qed.

Lemma utility_car_loop_other_order (mobility_factor : F) (e : dict F) :
  let rate := fun v => v * CAR_SUBSTITUTION_RATE * mobility_factor in
  let other :=
    fold_left (utility_car_step mobility_factor)
              ["car_essence"; "car_diesel"] e in
  (forall k, k <> "carpool" ->
     get k other
     = get k (fold_left (utility_car_step mobility_factor) CAR_POSTS e))
  /\ get_default "carpool" (lit 0) other =
       gain "car_diesel" rate e
         (gain "car_essence" rate e (get_default "carpool" (lit 0) e)).
Proof.
  exact (car_loop_other_order
           (fun v => v * CAR_SUBSTITUTION_RATE * mobility_factor) e).
Qed.
Lemma modal_loops_other_order (e : dict F) :
  fold_left modal_car_step ["car_essence"; "car_diesel"]
    (fold_left modal_flight_step MAX_FLIGHT_SUBSTITUTION e)
  = shift_loop "carpool" to_carpool (rev modal_car_rules)
      (shift_loop "train_tgv" to_rail modal_flight_rules e).
Proof.
  cbv [shift_loop modal_car_rules modal_flight_rules CAR_POSTS
       MAX_FLIGHT_SUBSTITUTION map fold_left fst snd rev app
       modal_car_step modal_flight_step shift to_rail to_carpool].
  reflexivity.
Qed.

Lemma utility_loops_other_order (mobility_factor : F) (e : dict F) :
  fold_left (utility_car_step mobility_factor) ["car_essence"; "car_diesel"]
    (fold_left (utility_flight_step mobility_factor) MAX_FLIGHT_SUBSTITUTION e)
  = shift_loop "carpool" to_carpool (rev (utility_car_rules mobility_factor))
      (shift_loop "train_tgv" to_rail (utility_flight_rules mobility_factor) e).
Proof.
  cbv [shift_loop utility_car_rules utility_flight_rules CAR_POSTS
       MAX_FLIGHT_SUBSTITUTION map fold_left fst snd rev app
       utility_car_step utility_flight_step shift to_rail to_carpool].
  reflexivity.
Qed.
End OtherOrder.

(** ** Amounts kept within a set

    The substitution loops keep every amount within a set [N] as long as
    each rule does on the amounts [G] the source keys hold. *)

Lemma all_amounts_set {V : Type} (P : V -> Prop) (k : string) (v : V)
    (d : dict V) :
  all_amounts P d -> P v -> all_amounts P (set k v d).
Proof.
  unfold all_amounts. intros H Hv.
  induction H as [|[k' v'] d Hx Hd IH]; simpl.
  - constructor; [exact Hv|constructor].
  - destruct (String.eqb k k'); constructor; auto.
Qed.

Lemma all_amounts_get {V : Type} (P : V -> Prop) (k : string) (v : V)
    (d : dict V) :
  all_amounts P d -> get k d = Some v -> P v.
Proof.
  intros H Hg. apply get_In in Hg. unfold all_amounts in H.
  rewrite Forall_forall in H. apply (H _ Hg).
Qed.


Section KeptAmounts.
Context {F : Type} {A : Arith F}.
Variables G N : F -> Prop.
Hypothesis N_zero : N (lit 0).
Local Open Scope py_scope.

Lemma shift_keeps_amounts src dst reduction realloc (e : dict F) :
  keeps_amounts G N realloc reduction ->
  all_amounts N e -> (forall v, get src e = Some v -> G v) ->
  all_amounts N (shift src dst reduction realloc e).
Proof.
  intros Hrule He Hsrc. unfold shift.
  destruct (get src e) as [v|] eqn:E; [|exact He].
  destruct (v >? lit 0) eqn:Hv; [|exact He].
  destruct (Hrule v (Hsrc v eq_refl) Hv) as [H1 H2]. cbv zeta.
  assert (He' : all_amounts N (set src (v - reduction v) e))
    by now apply all_amounts_set.
  apply all_amounts_set; [exact He'|]. apply H2.
  unfold get_default.
  destruct (get dst (set src (v - reduction v) e)) as [t|] eqn:Et.
  - exact (all_amounts_get N dst t _ He' Et).
  - exact N_zero.
Qed.

Lemma shift_loop_keeps_amounts dst realloc
    (rules : list (string * (F -> F))) : forall e : dict F,
  NoDup (map fst rules) -> ~ In dst (map fst rules) ->
  Forall (fun rule => keeps_amounts G N realloc (snd rule)) rules ->
  all_amounts N e ->
  (forall k v, In k (map fst rules) -> get k e = Some v -> G v) ->
  all_amounts N (shift_loop dst realloc rules e).
Proof.
  induction rules as [|[s r] rules IH]; intros e Hnd Hdst Hok He Hsrc.
  - exact He.
  - rewrite shift_loop_cons. simpl in Hnd, Hdst, Hsrc |- *.
    inversion Hnd as [|? ? Hs Hnd']; subst.
    inversion Hok as [|? ? Hr Hok']; subst.
    apply IH; [exact Hnd'|tauto|exact Hok'| |].
    + apply shift_keeps_amounts; [exact Hr|exact He|].
      intros v Hv. apply (Hsrc s v); [now left|exact Hv].
    + intros k v Hk Hv. apply (Hsrc k v); [now right|].
      rewrite get_shift_other in Hv; [exact Hv| |]; intro; subst; tauto.
Qed.

Lemma digital_loop_keeps_amounts (reduction : F) (posts : list string) :
  forall e : dict F,
  (forall v, N v -> (v >? lit 0) = true -> N (v * (lit 1 - reduction))) ->
  all_amounts N e ->
  all_amounts N (fold_left (digital_step reduction) posts e).
Proof.
  induction posts as [|p posts IH]; intros e Hcut He; simpl.
  - exact He.
  - apply IH; [exact Hcut|]. unfold digital_step.
    destruct (get p e) as [v|] eqn:E; [|exact He].
    destruct (v >? lit 0) eqn:Hv; [|exact He].
    apply all_amounts_set; [exact He|].
    apply Hcut; [|exact Hv]. exact (all_amounts_get N p v e He E).
Qed.

End KeptAmounts.

(** ** Binary64 rounding

    What the sign of [v - v * c] needs from the rounding of [SpecFloat]:
    a product that lies, before rounding, below a number of the format
    still lies below it after rounding.  The two stages of
    [binary_round_aux] are followed on the integers: the right shift
    divides the mantissa by a power of two and raises its flags only when
    the division is not exact, and rounding to nearest moves the quotient
    up by at most one, and only when a flag is raised. *)

Section Binary64.
Local Open Scope Z_scope.
Local Abbreviation fexp64 := (fexp prec emax).

Lemma fexp64_eq e : fexp64 e = Z.max (e - 53) (-1074).
Proof. reflexivity. Qed.

Lemma fexp64_mono a b : a <= b -> fexp64 a <= fexp64 b.
Proof. rewrite !fexp64_eq. lia. Qed.

Lemma digits2_pos_log2 p : Zpos (digits2_pos p) = Z.log2 (Zpos p) + 1.
Proof.
  induction p as [p IH|p IH|]; simpl digits2_pos.
  - rewrite Pos2Z.inj_succ, IH.
    change (Z.pos p~1) with (2 * Z.pos p + 1).
    rewrite Z.log2_succ_double by lia. lia.
  - rewrite Pos2Z.inj_succ, IH.
    change (Z.pos p~0) with (2 * Z.pos p).
    rewrite Z.log2_double by lia. lia.
  - reflexivity.
Qed.

Lemma Zdigits2_pos m : 0 < m -> Zdigits2 m = Z.log2 m + 1.
Proof.
  destruct m as [|p|p]; try lia. intros _. apply digits2_pos_log2.
Qed.

(** A number below [K * 2^s] has at most [s] digits more than [K]. *)
Lemma Zdigits2_le m K s :
  0 <= m -> 0 < K -> 0 <= s -> m <= K * 2 ^ s ->
  Zdigits2 m <= Zdigits2 K + s.
Proof.
  intros Hm HK Hs Hle.
  rewrite (Zdigits2_pos K HK).
  destruct (Z.eq_dec m 0) as [->|Hne].
  - simpl. pose proof (Z.log2_nonneg K). lia.
  - rewrite Zdigits2_pos by lia.
    assert (Z.log2 m <= Z.log2 (K * 2 ^ s)) by now apply Z.log2_le_mono.
    rewrite Z.log2_mul_pow2 in H by lia. lia.
Qed.

(** One step of the right shift, on a non-negative mantissa. *)
Lemma shr_1_nonneg m r s :
  0 <= m ->
  shr_1 {| shr_m := m; shr_r := r; shr_s := s |}
  = {| shr_m := m / 2; shr_r := Z.odd m; shr_s := r || s |}.
Proof.
  intro Hm. destruct m as [|p|p]; [reflexivity| |lia].
  destruct p as [p|p|]; unfold shr_1.
  - f_equal. change (Z.pos p~1) with (2 * Z.pos p + 1).
    rewrite Z.mul_comm, Z.div_add_l by lia. reflexivity.
  - f_equal. change (Z.pos p~0) with (2 * Z.pos p).
    rewrite Z.mul_comm, Z.div_mul by lia. reflexivity.
  - reflexivity.
Qed.

Lemma shr_1_inv m0 k mrs :
  0 <= m0 -> 0 <= k -> shr_inv m0 k mrs -> shr_inv m0 (k + 1) (shr_1 mrs).
Proof.
  intros Hm0 Hk [Hq Hflags]. destruct mrs as [m r s]. simpl in Hq, Hflags.
  assert (Hpow : 0 < 2 ^ k) by (apply Z.pow_pos_nonneg; lia).
  assert (Hm : 0 <= m) by (subst m; apply Z.div_pos; lia).
  rewrite shr_1_nonneg by exact Hm. unfold shr_inv. simpl.
  rewrite Z.pow_add_r, Z.pow_1_r by lia.
  split.
  - rewrite <- Z.div_div by lia. now rewrite Hq.
  - intros Hf Hmod.
    assert (Hdiv : m0 = 2 ^ k * 2 * (m0 / (2 ^ k * 2))).
    { apply Z.div_exact in Hmod; lia. }
    apply orb_true_iff in Hf as [Hodd | Hrs].
    + assert (m = 2 * (m0 / (2 ^ k * 2))).
      { rewrite Hq. rewrite Hdiv at 1.
        rewrite <- Z.mul_assoc, Z.mul_comm, Z.div_mul by lia. reflexivity. }
      rewrite H, Z.odd_mul in Hodd. discriminate.
    + apply Hflags; [exact Hrs|].
      rewrite Hdiv, <- Z.mul_assoc, Z.mul_comm. apply Z.mod_mul. lia.
Qed.

Lemma iter_pos_shr_inv m0 p : forall mrs k,
  0 <= m0 -> 0 <= k -> shr_inv m0 k mrs ->
  shr_inv m0 (k + Zpos p) (iter_pos shr_1 p mrs).
Proof.
  induction p as [p IH|p IH|]; intros mrs k Hm0 Hk Hinv; simpl iter_pos.
  - replace (k + Z.pos p~1) with (k + 1 + Z.pos p + Z.pos p) by lia.
    apply IH; [exact Hm0|lia|]. apply IH; [exact Hm0|lia|].
    now apply shr_1_inv.
  - replace (k + Z.pos p~0) with (k + Z.pos p + Z.pos p) by lia.
    apply IH; [exact Hm0|lia|]. now apply IH.
  - now apply shr_1_inv.
Qed.

(** Rounding moves the truncated mantissa up by at most one, and only
    when a flag is raised. *)
Lemma round_nearest_even_bounds mrs :
  0 <= shr_m mrs ->
  shr_m mrs <= round_nearest_even (shr_m mrs) (loc_of_shr_record mrs)
  /\ round_nearest_even (shr_m mrs) (loc_of_shr_record mrs)
     <= shr_m mrs + (if shr_r mrs || shr_s mrs then 1 else 0).
Proof.
  destruct mrs as [m [|] [|]]; simpl; intro Hm;
    try destruct (Z.even m); lia.
Qed.

(** One rounding stage: a mantissa [M] at exponent [E] that lies below
    the number [K * 2^eK], canonical, stays below it. *)
Lemma shr_fexp_bound (M E K eK : Z) :
  0 <= M -> 0 < K -> E <= eK -> M <= K * 2 ^ (eK - E) ->
  fexp64 (Zdigits2 K + eK) = eK ->
  let mrs := fst (shr_fexp prec emax M E loc_Exact) in
  let e' := snd (shr_fexp prec emax M E loc_Exact) in
  e' <= eK
  /\ 0 <= shr_m mrs
  /\ round_nearest_even (shr_m mrs) (loc_of_shr_record mrs)
     <= K * 2 ^ (eK - e').
Proof.
  intros HM HK HE Hle Hcan. cbv zeta.
  assert (Hexp : fexp64 (Zdigits2 M + E) <= eK).
  { rewrite <- Hcan. apply fexp64_mono.
    pose proof (Zdigits2_le M K (eK - E) HM HK ltac:(lia) Hle). lia. }
  unfold shr_fexp, shr. simpl shr_record_of_loc.
  destruct (fexp64 (Zdigits2 M + E) - E) as [|p|p] eqn:En; simpl fst; simpl snd.
  - simpl. repeat split; lia.
  - assert (He' : E + Z.pos p <= eK) by lia.
    pose proof (iter_pos_shr_inv M p {| shr_m := M; shr_r := false; shr_s := false |}
                  0 HM ltac:(lia)) as Hinv.
    destruct Hinv as [Hq Hflags].
    { split; simpl; [now rewrite Z.div_1_r|discriminate]. }
    simpl Z.add in Hq, Hflags.
    set (mrs := iter_pos shr_1 p _) in *.
    assert (Hpow : 0 < 2 ^ Z.pos p) by (apply Z.pow_pos_nonneg; lia).
    assert (Hq0 : 0 <= shr_m mrs) by (rewrite Hq; apply Z.div_pos; lia).
    split; [exact He'|]. split; [exact Hq0|].
    set (K' := K * 2 ^ (eK - (E + Z.pos p))).
    assert (HK' : M <= K' * 2 ^ Z.pos p).
    { unfold K'. rewrite <- Z.mul_assoc, <- Z.pow_add_r by lia.
      replace (eK - (E + Z.pos p) + Z.pos p) with (eK - E) by lia. exact Hle. }
    assert (Hfloor : shr_m mrs <= K').
    { rewrite Hq. apply Z.div_le_upper_bound; lia. }
    destruct (round_nearest_even_bounds mrs Hq0) as [_ Hup].
    destruct (shr_r mrs || shr_s mrs) eqn:Hf; [|lia].
    assert (shr_m mrs <> K'); [|lia].
    intro Heq. apply Hflags; [reflexivity|].
    assert (K' * 2 ^ Z.pos p <= M).
    { rewrite <- Heq, Hq, Z.mul_comm. apply Z.mul_div_le. lia. }
    assert (M = K' * 2 ^ Z.pos p) by lia.
    subst M. apply Z.mod_mul. lia.
  - simpl. repeat split; lia.
Qed.

(** Rounding a non-negative number that lies below a canonical,
    finite [K * 2^eK] gives a float below it. *)
Lemma binary_round_aux_below (M E K eK : Z) :
  0 <= M -> 0 < K -> E <= eK -> M <= K * 2 ^ (eK - E) ->
  fexp64 (Zdigits2 K + eK) = eK -> eK <= emax - prec ->
  below (binary_round_aux prec emax false M E loc_Exact) K eK.
Proof.
  intros HM HK HE Hle Hcan Hfin. unfold binary_round_aux.
  pose proof (shr_fexp_bound M E K eK HM HK HE Hle Hcan) as H1.
  destruct (shr_fexp prec emax M E loc_Exact) as [mrs' e'].
  cbv zeta in H1. simpl fst in H1. simpl snd in H1.
  destruct H1 as [He' [Hm' Hr]].
  destruct (round_nearest_even_bounds mrs' Hm') as [Hlow _].
  set (m1 := round_nearest_even (shr_m mrs') (loc_of_shr_record mrs')) in *.
  pose proof (shr_fexp_bound m1 e' K eK ltac:(lia) HK He' Hr Hcan) as H2.
  destruct (shr_fexp prec emax m1 e' loc_Exact) as [mrs'' e''].
  cbv zeta in H2. simpl fst in H2. simpl snd in H2.
  destruct H2 as [He'' [Hm'' Hr2]].
  destruct (round_nearest_even_bounds mrs'' Hm'') as [Hlow2 _].
  destruct (shr_m mrs'') as [|m2|m2] eqn:Em2; [exact I| |lia].
  assert (Hleb : (e'' <=? emax - prec) = true) by (apply Z.leb_le; lia).
  rewrite Hleb. simpl. split; lia.
Qed.

Lemma nonneg64_cases x :
  nonneg64 x <->
  match x with
  | S754_zero _ => True
  | S754_finite s _ _ | S754_infinity s => s = false
  | S754_nan => False
  end.
Proof.
  unfold nonneg64, SFleb, SFcompare.
  destruct x as [s|s| |s m e]; try destruct s; simpl;
    intuition (try discriminate; auto).
Qed.

Lemma shr_fexp_nonneg (M E : Z) :
  0 <= M -> 0 <= shr_m (fst (shr_fexp prec emax M E loc_Exact)).
Proof.
  intro HM. unfold shr_fexp, shr. simpl shr_record_of_loc.
  destruct (fexp64 (Zdigits2 M + E) - E) as [|p|p]; simpl fst; simpl; try lia.
  destruct (iter_pos_shr_inv M p {| shr_m := M; shr_r := false; shr_s := false |}
              0 HM ltac:(lia)) as [Hq _].
  { split; simpl; [now rewrite Z.div_1_r|discriminate]. }
  rewrite Hq. apply Z.div_pos; [lia|]. apply Z.pow_pos_nonneg; lia.
Qed.

(** Rounding a non-negative number gives [+0], a positive float or
    [+inf]. *)
Lemma binary_round_aux_nonneg (M E : Z) :
  0 <= M -> nonneg64 (binary_round_aux prec emax false M E loc_Exact).
Proof.
  intro HM. unfold binary_round_aux.
  pose proof (shr_fexp_nonneg M E HM) as H1.
  destruct (shr_fexp prec emax M E loc_Exact) as [mrs' e']. simpl fst in H1.
  destruct (round_nearest_even_bounds mrs' H1) as [Hlow _].
  set (m1 := round_nearest_even (shr_m mrs') (loc_of_shr_record mrs')) in *.
  pose proof (shr_fexp_nonneg m1 e' ltac:(lia)) as H2.
  destruct (shr_fexp prec emax m1 e' loc_Exact) as [mrs'' e'']. simpl fst in H2.
  destruct (shr_m mrs'') as [|m2|m2]; [reflexivity| |lia].
  destruct (e'' <=? emax - prec); reflexivity.
Qed.

Lemma binary_round_nonneg (m : positive) (e : Z) :
  nonneg64 (binary_round prec emax false m e).
Proof.
  unfold binary_round.
  destruct (shl_align m e _) as [mz ez].
  apply binary_round_aux_nonneg. lia.
Qed.

Lemma binary_normalize_nonneg (z e : Z) :
  0 <= z -> nonneg64 (binary_normalize prec emax z e false).
Proof.
  intro Hz. destruct z as [|p|p]; [reflexivity| |lia].
  apply binary_round_nonneg.
Qed.

(** Sums of non-negative floats are non-negative. *)
Lemma SFadd_nonneg (x y : spec_float) :
  nonneg64 x -> nonneg64 y -> nonneg64 (SFadd prec emax x y).
Proof.
  intros Hx Hy. apply nonneg64_cases in Hx, Hy.
  destruct x as [sx|sx| |sx mx ex], y as [sy|sy| |sy my ey];
    try contradiction; subst;
    try (destruct sx, sy; reflexivity); try (destruct sx; reflexivity);
    try (destruct sy; reflexivity); try reflexivity.
  unfold SFadd. apply binary_normalize_nonneg. simpl cond_Zopp. lia.
Qed.

(** Products of a non-negative float by a positive finite one are
    non-negative. *)
Lemma SFmul_nonneg (x : spec_float) (my : positive) (ey : Z) :
  nonneg64 x -> nonneg64 (SFmul prec emax x (S754_finite false my ey)).
Proof.
  intro Hx. apply nonneg64_cases in Hx.
  destruct x as [sx|sx| |sx mx ex]; try contradiction; subst.
  - destruct sx; reflexivity.
  - reflexivity.
  - unfold SFmul. simpl xorb. apply binary_round_aux_nonneg. lia.
Qed.

(** ** Products that stay below a bound *)

Lemma bounded_canonical (m : positive) (e : Z) :
  bounded prec emax m e = true ->
  fexp64 (Zdigits2 (Zpos m) + e) = e /\ e <= emax - prec.
Proof.
  unfold bounded, canonical_mantissa. intro H.
  apply andb_true_iff in H as [H1 H2].
  apply Z.eqb_eq in H1. apply Z.leb_le in H2. now split.
Qed.

(** The product of a float below [K1 * 2^eK1] by a positive constant lies
    below [K * 2^eK] when the bounds do. *)
Lemma SFmul_below (w : spec_float) (mc : positive) (ec K1 eK1 K eK : Z) :
  below w K1 eK1 ->
  0 <= K1 -> 0 < K -> eK1 + ec <= eK ->
  K1 * Zpos mc <= K * 2 ^ (eK - eK1 - ec) ->
  fexp64 (Zdigits2 K + eK) = eK -> eK <= emax - prec ->
  below (SFmul prec emax w (S754_finite false mc ec)) K eK.
Proof.
  intros Hw HK1 HK He Hle Hcan Hfin.
  destruct w as [[|]| | |[|] m1 e1]; try contradiction; [exact I|].
  destruct Hw as [He1 Hm1].
  unfold SFmul. simpl xorb.
  apply binary_round_aux_below; try assumption; try lia.
  rewrite Pos2Z.inj_mul.
  assert (Hp : 0 < 2 ^ (eK1 - e1)) by (apply Z.pow_pos_nonneg; lia).
  replace (eK - (e1 + ec)) with ((eK - eK1 - ec) + (eK1 - e1)) by lia.
  rewrite Z.pow_add_r by lia.
  transitivity (K1 * 2 ^ (eK1 - e1) * Z.pos mc).
  - apply Z.mul_le_mono_nonneg_r; lia.
  - replace (K1 * 2 ^ (eK1 - e1) * Z.pos mc)
      with (K1 * Z.pos mc * 2 ^ (eK1 - e1)) by ring.
    rewrite Z.mul_assoc. apply Z.mul_le_mono_nonneg_r; lia.
Qed.

Lemma below_self (m : positive) (e : Z) :
  below (S754_finite false m e) (Zpos m) e.
Proof. simpl. split; [lia|]. rewrite Z.sub_diag. simpl. lia. Qed.

Lemma shl_align_spec (m : positive) (e e' : Z) :
  e' <= e ->
  Zpos (fst (shl_align m e e')) = Zpos m * 2 ^ (e - e').
Proof.
  intro H. unfold shl_align.
  destruct (e' - e) as [|d|d] eqn:E; simpl fst.
  - replace (e - e') with 0 by lia. simpl. lia.
  - lia.
  - replace (e - e') with (Zpos d) by lia.
    clear. induction d as [|d IH] using Pos.peano_ind.
    + simpl. lia.
    + rewrite Pos.iter_succ, Pos2Z.inj_succ, Z.pow_succ_r by lia.
      rewrite Pos2Z.inj_xO, IH. lia.
Qed.

(** Taking a float below [v] out of [v] leaves a non-negative float. *)
Lemma SFsub_below_nonneg (mv : positive) (ev : Z) (w : spec_float) :
  below w (Zpos mv) ev ->
  nonneg64 (SFsub prec emax (S754_finite false mv ev) w).
Proof.
  destruct w as [[|]| | |[|] m e]; try contradiction; intro Hw.
  - reflexivity.
  - destruct Hw as [He Hm]. unfold SFsub.
    apply binary_normalize_nonneg. simpl cond_Zopp.
    replace (Z.min ev e) with e by lia.
    rewrite (shl_align_spec mv ev e He), (shl_align_spec m e e) by lia.
    rewrite Z.sub_diag. simpl (2 ^ 0). lia.
Qed.

Lemma at_most_cases num den c :
  at_most num den c = true ->
  exists mc ec, c = S754_finite false mc ec /\ ec <= 0
                /\ Zpos mc * den <= num * 2 ^ (- ec).
Proof.
  destruct c as [| | |[|] mc ec]; try discriminate. simpl. intro H.
  apply andb_true_iff in H as [H1 H2].
  apply Z.leb_le in H1, H2. now exists mc, ec.
Qed.

Lemma positive_amount64 v :
  amount64 v = true -> SFltb (S754_zero false) v = true ->
  exists mv ev, v = S754_finite false mv ev /\ bounded prec emax mv ev = true.
Proof.
  destruct v as [s|s| |[|] mv ev]; intros Hv Hpos; try discriminate.
  now exists mv, ev.
Qed.

(** [v * c] stays below [v] for a rate [c <= 1]. *)
Lemma SFmul_rate_below (w : spec_float) (c : spec_float) (K eK : Z) :
  below w K eK -> 0 < K ->
  fexp64 (Zdigits2 K + eK) = eK -> eK <= emax - prec ->
  at_most 1 1 c = true ->
  below (SFmul prec emax w c) K eK.
Proof.
  intros Hw HK Hcan Hfin Hc.
  destruct (at_most_cases _ _ _ Hc) as [mc [ec [-> [Hec Hmc]]]].
  apply (SFmul_below w mc ec K eK K eK); try assumption; try lia.
  replace (eK - eK - ec) with (- ec) by lia.
  apply Z.mul_le_mono_nonneg_l; lia.
Qed.

(** [v - v * c] for a rate [c <= 1]. *)
Lemma take_rate (v c : spec_float) :
  amount64 v = true -> SFltb (S754_zero false) v = true ->
  at_most 1 1 c = true ->
  nonneg64 (SFsub prec emax v (SFmul prec emax v c)).
Proof.
  intros Hv Hpos Hc.
  destruct (positive_amount64 v Hv Hpos) as [mv [ev [-> Hb]]].
  destruct (bounded_canonical mv ev Hb) as [Hcan Hfin].
  apply SFsub_below_nonneg.
  apply SFmul_rate_below; try assumption; try lia. apply below_self.
Qed.

(** [v - v * c1 * c2] for two rates [c1, c2 <= 1]. *)
Lemma take_rates (v c1 c2 : spec_float) :
  amount64 v = true -> SFltb (S754_zero false) v = true ->
  at_most 1 1 c1 = true -> at_most 1 1 c2 = true ->
  nonneg64 (SFsub prec emax v (SFmul prec emax (SFmul prec emax v c1) c2)).
Proof.
  intros Hv Hpos Hc1 Hc2.
  destruct (positive_amount64 v Hv Hpos) as [mv [ev [-> Hb]]].
  destruct (bounded_canonical mv ev Hb) as [Hcan Hfin].
  apply SFsub_below_nonneg.
  apply SFmul_rate_below; try assumption; try lia.
  apply SFmul_rate_below; try assumption; try lia. apply below_self.
Qed.

(** [v - v * c1 * c2] for [c1 <= 1/2] and [c2 <= 3/2], where the second
    factor exceeds one: the first product, rounded, still leaves room. *)
Lemma take_rates_above_one (v c1 c2 : spec_float) :
  amount64 v = true -> SFltb (S754_zero false) v = true ->
  at_most 1 2 c1 = true -> at_most 3 2 c2 = true ->
  SFmul prec emax (S754_finite false 1 (-1074)) c1 = S754_zero false ->
  nonneg64 (SFsub prec emax v (SFmul prec emax (SFmul prec emax v c1) c2)).
Proof.
  intros Hv Hpos Hc1 Hc2 Htiny.
  destruct (positive_amount64 v Hv Hpos) as [mv [ev [-> Hb]]].
  destruct (bounded_canonical mv ev Hb) as [Hcan Hfin].
  destruct (at_most_cases _ _ _ Hc1) as [m1 [e1 [-> [He1 Hm1]]]].
  destruct (at_most_cases _ _ _ Hc2) as [m2 [e2 [-> [He2 Hm2]]]].
  assert (He1' : e1 <= -1).
  { destruct (Z.eq_dec e1 0) as [E|E]; [|lia]. subst e1. simpl in Hm1. lia. }
  assert (Hp1 : 0 < 2 ^ (- e1)) by (apply Z.pow_pos_nonneg; lia).
  assert (Hp2 : 0 < 2 ^ (- e2)) by (apply Z.pow_pos_nonneg; lia).
  apply SFsub_below_nonneg.
  pose proof Hcan as Hcan'. rewrite fexp64_eq in Hcan'.
  unfold emax, prec in Hfin.
  destruct (Z.eq_dec ev (-1074)) as [Hev | Hev].
  - (* the lowest binade *)
    subst ev.
    destruct (Pos.eq_dec mv 1) as [-> | Hmv].
    + rewrite Htiny. exact I.
    + assert (Hmv2 : 2 <= Zpos mv) by lia.
      set (K1 := (Zpos mv + 1) / 2).
      assert (HK1 : 2 * K1 <= Zpos mv + 1 /\ Zpos mv <= 2 * K1).
      { unfold K1. pose proof (Z.div_mod (Zpos mv + 1) 2 ltac:(lia)).
        pose proof (Z.mod_pos_bound (Zpos mv + 1) 2 ltac:(lia)). lia. }
      assert (Hcan1 : fexp64 (Zdigits2 K1 + -1074) = -1074).
      { rewrite fexp64_eq.
        pose proof (Zdigits2_le K1 (Zpos mv) 0 ltac:(lia) ltac:(lia) ltac:(lia)
                      ltac:(simpl; lia)).
        lia. }
      apply (SFmul_below _ m2 e2 K1 (-1074) (Zpos mv) (-1074));
        try assumption; try lia.
      * apply (SFmul_below _ m1 e1 (Zpos mv) (-1074) K1 (-1074));
          try assumption; try lia.
        -- apply below_self.
        -- replace (-1074 - -1074 - e1) with (- e1) by lia. nia.
      * replace (-1074 - -1074 - e2) with (- e2) by lia.
        destruct (Z.eq_dec (Zpos mv) 2) as [E2 | E2]; nia.
  - (* above it, [v / 2] is a float *)
    assert (Hd : Zdigits2 (Zpos mv) = 53) by lia.
    assert (Hcan1 : fexp64 (Zdigits2 (Zpos mv) + (ev - 1)) = ev - 1).
    { rewrite fexp64_eq. lia. }
    apply (SFmul_below _ m2 e2 (Zpos mv) (ev - 1) (Zpos mv) ev);
      try assumption; try lia.
    + apply (SFmul_below _ m1 e1 (Zpos mv) ev (Zpos mv) (ev - 1));
        try assumption; try lia.
      * apply below_self.
      * replace (ev - 1 - ev - e1) with (- e1 - 1) by lia.
        assert (2 ^ (- e1) = 2 * 2 ^ (- e1 - 1)).
        { rewrite <- Z.pow_succ_r by lia. f_equal. lia. }
        apply Z.mul_le_mono_nonneg_l; lia.
      * unfold emax, prec. lia.
    + replace (ev - (ev - 1) - e2) with (1 + - e2) by lia.
      rewrite Z.pow_add_r by lia. simpl (2 ^ 1).
      apply Z.mul_le_mono_nonneg_l; lia.
Qed.
End Binary64.
(* ================================================================== *)
(** * The scenario engine *)

Section RuleKeys.
Context {F : Type} {A : Arith F}.

Lemma modal_flight_keys :
  map fst modal_flight_rules = map fst MAX_FLIGHT_SUBSTITUTION.
Proof. reflexivity. Qed.

Lemma modal_car_keys : map fst modal_car_rules = CAR_POSTS.
Proof. reflexivity. Qed.

Lemma utility_flight_keys (m : F) :
  map fst (utility_flight_rules m) = map fst MAX_FLIGHT_SUBSTITUTION.
Proof. reflexivity. Qed.

Lemma utility_car_keys (m : F) : map fst (utility_car_rules m) = CAR_POSTS.
Proof. reflexivity. Qed.
End RuleKeys.




Lemma get_after_digital {F : Type} {A : Arith F} (reduction : F)
    (baseline : dict F) (k : string) :
  mem k DIGITAL_SOBRIETY_POSTS = false ->
  get k (fold_left (digital_step reduction) DIGITAL_SOBRIETY_POSTS baseline)
  = get k baseline.
Proof.
  intro H. apply get_digital_loop_other. now apply not_In_strings_dec.
Qed.





(** C4. [scenario_digital_sobriety].  In any arithmetic, binary64
    included, and for every baseline: a key of the adjustable set with a
    positive value [v] ends at [v * (1 - 0.3)]; every key outside the set,
    the digital-structural keys among them, and every key of the set that
    is not positive keep the entry of the baseline; no key is added or
    removed.  The factor [1 - 0.3] is [0.7] in exact arithmetic and the
    float [0.7] in binary64.  For the baseline [{cloud: 100, server: 200}]
    the result is [cloud = 70], [server = 200], with total [270], in exact
    arithmetic as in binary64. *)
Theorem digital_sobriety_spec :
  DIGITAL_SOBRIETY_POSTS = ["cloud"; "video_conf"; "email"; "llm_usage"]
  /\ (forall (F : Type) (A : Arith F) (baseline : dict F),
        let out := scenario_digital_sobriety baseline in
        (forall post v,
            In post DIGITAL_SOBRIETY_POSTS ->
            get post baseline = Some v -> ltb (lit 0) v = true ->
            get post out = Some (v * (lit 1 - lit 0.3))%py)
        /\ (forall k, ~ In k DIGITAL_SOBRIETY_POSTS -> get k out = get k baseline)
        /\ (forall k, In k DIGITAL_STRUCTURAL_POSTS -> get k out = get k baseline)
        /\ (forall post,
               In post DIGITAL_SOBRIETY_POSTS ->
               positive_at post baseline = false ->
               get post out = get post baseline)
        /\ keys out = keys baseline)
  /\ sub (A:=exact) (lit 1) MAX_DIGITAL_REDUCTION == 0.7
  /\ sub (A:=binary64) (lit 1) MAX_DIGITAL_REDUCTION = lit 0.7
  /\ (let example :=
        scenario_digital_sobriety (A:=exact) [("cloud", 100); ("server", 200)] in
      map (fun kv => (fst kv, Qred (snd kv))) example
        = [("cloud", 70); ("server", 200)]
      /\ Qred (py_sum (values example)) = 270)
  /\ (let example :=
        scenario_digital_sobriety (A:=binary64)
          [("cloud", lit 100); ("server", lit 200)] in
      example = [("cloud", lit 70); ("server", lit 200)]
      /\ py_sum (values example) = lit 270).
Proof.
  split; [reflexivity|]. split; [|split; [|split; [|split]]].
  - intros F A baseline out. subst out. rewrite scenario_digital_sobriety_loop.
    repeat apply conj.
    + intros post v Hin Hg Hv.
      rewrite get_digital_loop_in;
        [|exact NoDup_DIGITAL_SOBRIETY_POSTS|exact Hin].
      exact (updated_positive (fun v => mul v (sub (lit 1) MAX_DIGITAL_REDUCTION))
               post baseline v Hg Hv).
    + intros k Hk. now apply get_digital_loop_other.
    + intros k Hk. apply get_digital_loop_other.
      simpl in Hk. intuition (subst; simpl in *; intuition discriminate).
    + intros post Hin Hidle.
      rewrite get_digital_loop_in;
        [|exact NoDup_DIGITAL_SOBRIETY_POSTS|exact Hin].
      now apply updated_idle.
    + apply keys_digital_loop.
  - vm_compute. reflexivity.
  - vm_compute. reflexivity.
  - vm_compute. split; reflexivity.
  - vm_compute. split; reflexivity.
Qed.

Lemma digital_sobriety_spec_witness :
  let baseline := [("cloud", lit (A:=binary64) 100); ("server", lit 200)] in
  In "cloud" DIGITAL_SOBRIETY_POSTS
  /\ get "cloud" baseline = Some (lit 100)
  /\ ltb (lit 0) (lit (A:=binary64) 100) = true
  /\ get "cloud" (scenario_digital_sobriety baseline)
     = Some (lit 100 * (lit 1 - lit 0.3))%py.
Proof.
  intro baseline.
  assert (Hin : In "cloud" DIGITAL_SOBRIETY_POSTS) by (left; reflexivity).
  split; [exact Hin|]. split; [reflexivity|]. split; [reflexivity|].
  apply (proj1 (proj1 (proj2 digital_sobriety_spec) _ binary64 baseline)
           "cloud" (lit 100) Hin); reflexivity.
Defined.

(** C5. the tier of [scenario_utility_aware]: a score of at least 8 selects
    [(0.10, 0.5)], a score from 5 to 7 selects [(0.25, 1.0)], a score below
    5 selects [(0.40, 1.3)], in any arithmetic; these are the tiers "high",
    "medium" and "low" of the rules table; 8 is high, 7 and 5 are medium, 4
    is low; a negative score gives the scenario of the low tier and a score
    above 10 that of the high tier. *)
Theorem utility_tier_selection :
  (forall (F : Type) (A : Arith F) utility, (8 <= utility)%Z ->
     utility_parameters (A:=A) utility = (lit 0.1, lit 0.5))
  /\ (forall (F : Type) (A : Arith F) utility, (5 <= utility < 8)%Z ->
        utility_parameters (A:=A) utility = (lit 0.25, lit 1.0))
  /\ (forall (F : Type) (A : Arith F) utility, (utility < 5)%Z ->
        utility_parameters (A:=A) utility = (lit 0.4, lit 1.3))
  /\ (forall utility, (8 <= utility)%Z ->
        in_tier "high" (utility_parameters utility))
  /\ (forall utility, (5 <= utility < 8)%Z ->
        in_tier "medium" (utility_parameters utility))
  /\ (forall utility, (utility < 5)%Z ->
        in_tier "low" (utility_parameters utility))
  /\ in_tier "high" (utility_parameters 8)
  /\ in_tier "medium" (utility_parameters 7)
  /\ in_tier "medium" (utility_parameters 5)
  /\ in_tier "low" (utility_parameters 4)
  /\ (forall (F : Type) (A : Arith F) (baseline : dict F) utility,
        (utility < 0)%Z ->
        scenario_utility_aware baseline utility
        = scenario_utility_aware baseline 4)
  /\ (forall (F : Type) (A : Arith F) (baseline : dict F) utility,
        (10 < utility)%Z ->
        scenario_utility_aware baseline utility
        = scenario_utility_aware baseline 8).
Proof.
  assert (Hhigh : forall (F : Type) (A : Arith F) u, (8 <= u)%Z ->
                  utility_parameters (A:=A) u = (lit 0.1, lit 0.5)).
  { intros F A u Hu. unfold utility_parameters.
    destruct (u >=? 8)%Z eqn:E; [reflexivity|lia]. }
  assert (Hmed : forall (F : Type) (A : Arith F) u, (5 <= u < 8)%Z ->
                 utility_parameters (A:=A) u = (lit 0.25, lit 1.0)).
  { intros F A u Hu. unfold utility_parameters.
    destruct (u >=? 8)%Z eqn:E8; [lia|].
    destruct (u >=? 5)%Z eqn:E5; [reflexivity|lia]. }
  assert (Hlow : forall (F : Type) (A : Arith F) u, (u < 5)%Z ->
                 utility_parameters (A:=A) u = (lit 0.4, lit 1.3)).
  { intros F A u Hu. unfold utility_parameters.
    destruct (u >=? 8)%Z eqn:E8; [lia|].
    destruct (u >=? 5)%Z eqn:E5; [lia|reflexivity]. }
  assert (Thigh : in_tier "high" (0.1, 0.5)) by (split; reflexivity).
  assert (Tmed : in_tier "medium" (0.25, 1.0)) by (split; reflexivity).
  assert (Tlow : in_tier "low" (0.4, 1.3)) by (split; reflexivity).
  split; [exact Hhigh|]. split; [exact Hmed|]. split; [exact Hlow|].
  split; [intros u Hu; rewrite (Hhigh Q exact u Hu); exact Thigh|].
  split; [intros u Hu; rewrite (Hmed Q exact u Hu); exact Tmed|].
  split; [intros u Hu; rewrite (Hlow Q exact u Hu); exact Tlow|].
  split; [exact Thigh|]. split; [exact Tmed|].
  split; [exact Tmed|]. split; [exact Tlow|].
  split.
  - intros F A baseline u Hu. unfold scenario_utility_aware.
    rewrite (Hlow F A u), (Hlow F A 4%Z) by lia. reflexivity.
  - intros F A baseline u Hu. unfold scenario_utility_aware.
    rewrite (Hhigh F A u), (Hhigh F A 8%Z) by lia. reflexivity.
Qed.

Lemma utility_tier_selection_witness :
  (8 <= 9)%Z
  /\ utility_parameters (A:=binary64) 9 = (lit 0.1, lit 0.5).
Proof.
  split; [lia|].
  apply (proj1 utility_tier_selection spec_float binary64 9%Z). lia.
Defined.

(** ** Sound rules *)

(** Proves a property of every entry of a concrete table. *)
Ltac each_rule tac := repeat (apply Forall_cons; [tac|]); apply Forall_nil.

Lemma to_rail_bounds (x : Q) : 0 <= x -> 0 <= to_rail x <= x.
Proof. unfold to_rail; exact_arith. intro H. split; lra. Qed.

Lemma to_carpool_bounds (x : Q) : 0 <= x -> 0 <= to_carpool x <= x.
Proof. unfold to_carpool. intro H. split; lra. Qed.

Lemma sound_rule_scale (realloc : Q -> Q) (c : Q) :
  (forall x, 0 <= x -> 0 <= realloc x <= x) ->
  0 <= c <= 1 -> sound_rule realloc (fun v => v * c).
Proof.
  intros Hre Hc v Hv. split; [nra|]. apply Hre. nra.
Qed.

Lemma sound_modal_flight_rules :
  Forall (fun rule => sound_rule to_rail (snd rule)) modal_flight_rules.
Proof.
  unfold modal_flight_rules, MAX_FLIGHT_SUBSTITUTION; exact_arith. simpl map.
  each_rule ltac:(simpl snd; apply sound_rule_scale;
                  [exact to_rail_bounds|lra]).
Qed.

Lemma sound_modal_car_rules :
  Forall (fun rule => sound_rule to_carpool (snd rule)) modal_car_rules.
Proof.
  unfold modal_car_rules, CAR_POSTS, CAR_SUBSTITUTION_RATE; exact_arith. simpl map.
  each_rule ltac:(simpl snd; apply sound_rule_scale;
                  [exact to_carpool_bounds|lra]).
Qed.



(** ** The scenarios on binary64 amounts *)

Section ScenariosBinary64.
Local Abbreviation G := (fun x : spec_float => amount64 x = true).

Lemma amount64_nonneg (x : spec_float) : amount64 x = true -> nonneg64 x.
Proof.
  intro H. apply nonneg64_cases.
  destruct x as [s|s| |[|] m e]; try discriminate; auto.
Qed.

Lemma finite_non_negative_binary64_weaken (e : dict spec_float) :
  finite_non_negative_binary64 e -> non_negative_binary64 e.
Proof.
  unfold finite_non_negative_binary64, non_negative_binary64, all_amounts.
  apply Forall_impl. intros kv. apply amount64_nonneg.
Qed.

Lemma positive_binary64 (v : spec_float) :
  ltb (lit (A:=binary64) 0) v = SFltb (S754_zero false) v.
Proof. reflexivity. Qed.

(** The product of an amount by a rate is non-negative. *)
Lemma SFmul_rate_nonneg (x c : spec_float) (num den : Z) :
  nonneg64 x -> at_most num den c = true -> nonneg64 (mul (A:=binary64) x c).
Proof.
  intros Hx Hc. destruct (at_most_cases _ _ _ Hc) as [mc [ec [-> _]]].
  now apply SFmul_nonneg.
Qed.

Lemma keeps_rate_rail (c : spec_float) :
  at_most 1 1 c = true ->
  keeps_amounts (A:=binary64) G nonneg64 to_rail (fun v => mul v c).
Proof.
  intros Hc v Hv Hpos. rewrite positive_binary64 in Hpos. split.
  - now apply take_rate.
  - intros t Ht. apply SFadd_nonneg; [exact Ht|]. unfold to_rail.
    apply (SFmul_rate_nonneg _ _ 1 1); [|reflexivity].
    apply (SFmul_rate_nonneg _ _ 1 1); [|exact Hc].
    now apply amount64_nonneg.
Qed.

Lemma keeps_rate_carpool (c : spec_float) :
  at_most 1 1 c = true ->
  keeps_amounts (A:=binary64) G nonneg64 to_carpool (fun v => mul v c).
Proof.
  intros Hc v Hv Hpos. rewrite positive_binary64 in Hpos. split.
  - now apply take_rate.
  - intros t Ht. apply SFadd_nonneg; [exact Ht|]. unfold to_carpool.
    apply (SFmul_rate_nonneg _ _ 1 1); [|exact Hc].
    now apply amount64_nonneg.
Qed.

Lemma keeps_rates_carpool (c1 c2 : spec_float) :
  at_most 1 1 c1 = true /\ at_most 1 1 c2 = true
  \/ at_most 1 2 c1 = true /\ at_most 3 2 c2 = true
     /\ mul (A:=binary64) (S754_finite false 1 (-1074)) c1 = S754_zero false ->
  keeps_amounts (A:=binary64) G nonneg64 to_carpool
    (fun v => mul (mul v c1) c2).
Proof.
  intros Hc v Hv Hpos. rewrite positive_binary64 in Hpos.
  assert (Hc1 : exists num den, at_most num den c1 = true)
    by (destruct Hc as [[H _] | [H _]]; eauto).
  assert (Hc2 : exists num den, at_most num den c2 = true)
    by (destruct Hc as [[_ H] | [_ [H _]]]; eauto).
  destruct Hc1 as [n1 [d1 Hc1]]. destruct Hc2 as [n2 [d2 Hc2]].
  split.
  - destruct Hc as [[H1 H2] | [H1 [H2 Htiny]]].
    + now apply take_rates.
    + now apply take_rates_above_one.
  - intros t Ht. apply SFadd_nonneg; [exact Ht|]. unfold to_carpool.
    apply (SFmul_rate_nonneg _ _ n2 d2); [|exact Hc2].
    apply (SFmul_rate_nonneg _ _ n1 d1); [|exact Hc1].
    now apply amount64_nonneg.
Qed.

Lemma keeps_modal_flight_rules :
  Forall (fun rule => keeps_amounts (A:=binary64) G nonneg64 to_rail (snd rule))
         modal_flight_rules.
Proof.
  unfold modal_flight_rules, MAX_FLIGHT_SUBSTITUTION. simpl map.
  each_rule ltac:(simpl snd; apply keeps_rate_rail; vm_compute; reflexivity).
Qed.

Lemma keeps_modal_car_rules :
  Forall (fun rule =>
            keeps_amounts (A:=binary64) G nonneg64 to_carpool (snd rule))
         modal_car_rules.
Proof.
  unfold modal_car_rules, CAR_POSTS. simpl map.
  each_rule ltac:(simpl snd; apply keeps_rate_carpool; vm_compute; reflexivity).
Qed.

(** The three tiers in binary64. *)
Lemma utility_parameters_binary64 (utility : Z) :
  In (utility_parameters (A:=binary64) utility)
     [(lit 0.1, lit 0.5); (lit 0.25, lit 1.0); (lit 0.4, lit 1.3)].
Proof.
  unfold utility_parameters.
  destruct (utility >=? 8)%Z; [now left|].
  destruct (utility >=? 5)%Z; [right; now left|right; right; now left].
Qed.

Lemma keeps_utility_rules (utility : Z) :
  let d := fst (utility_parameters (A:=binary64) utility) in
  let m := snd (utility_parameters (A:=binary64) utility) in
  at_most 1 1 (sub (lit 1) d) = true
  /\ Forall (fun rule => keeps_amounts (A:=binary64) G nonneg64 to_rail (snd rule))
            (utility_flight_rules m)
  /\ Forall (fun rule =>
               keeps_amounts (A:=binary64) G nonneg64 to_carpool (snd rule))
            (utility_car_rules m).
Proof.
  cbv zeta.
  destruct (utility_parameters_binary64 utility) as [<- | [<- | [<- | []]]];
    cbn [fst snd];
    (split; [vm_compute; reflexivity|]);
    unfold utility_flight_rules, utility_car_rules, MAX_FLIGHT_SUBSTITUTION,
      CAR_POSTS; simpl map;
    (split;
     [ each_rule ltac:(simpl snd; apply keeps_rate_rail; vm_compute; reflexivity)
     | each_rule ltac:(simpl snd; apply keeps_rates_carpool;
                       first [ left; split; vm_compute; reflexivity
                             | right; repeat split; vm_compute; reflexivity ]) ]).
Qed.

Lemma digital_cut_nonneg (d v : spec_float) :
  at_most 1 1 (sub (A:=binary64) (lit 1) d) = true ->
  nonneg64 v -> nonneg64 (mul v (sub (lit 1) d)).
Proof. intros Hd Hv. now apply (SFmul_rate_nonneg _ _ 1 1). Qed.

Lemma mobility_sources_finite (e : dict spec_float) :
  finite_non_negative_binary64 e ->
  forall k v, In k MOBILITY_SUBSTITUTION_POSTS -> get k e = Some v -> G v.
Proof. intros He k v _ Hg. exact (all_amounts_get _ k v e He Hg). Qed.

(** The same with the two cars visited in the other order. *)
Lemma car_loop_other_order_non_negative_binary64
    (flight_rules car_rules : list (string * (spec_float -> spec_float)))
    (e : dict spec_float) :
  map fst flight_rules = map fst (MAX_FLIGHT_SUBSTITUTION (A:=binary64)) ->
  map fst car_rules = CAR_POSTS ->
  Forall (fun rule => keeps_amounts (A:=binary64) G nonneg64 to_rail (snd rule))
         flight_rules ->
  Forall (fun rule =>
            keeps_amounts (A:=binary64) G nonneg64 to_carpool (snd rule))
         car_rules ->
  non_negative_binary64 e ->
  (forall k v, In k MOBILITY_SUBSTITUTION_POSTS -> get k e = Some v -> G v) ->
  non_negative_binary64
    (shift_loop "carpool" to_carpool (rev car_rules)
       (shift_loop "train_tgv" to_rail flight_rules e)).
Proof.
  intros Hf Hc Hfr Hcr He Hsrc.
  assert (N0 : nonneg64 (lit (A:=binary64) 0)) by reflexivity.
  apply (shift_loop_keeps_amounts G nonneg64 N0).
  - rewrite map_rev. apply NoDup_rev. exact (NoDup_car_keys _ Hc).
  - rewrite map_rev, <- in_rev, Hc. simpl. intuition discriminate.
  - apply Forall_rev. exact Hcr.
  - apply (shift_loop_keeps_amounts G nonneg64 N0).
    + exact (NoDup_flight_keys _ Hf).
    + rewrite Hf. simpl. intuition discriminate.
    + exact Hfr.
    + exact He.
    + intros k v Hk. apply Hsrc.
      apply (mobility_sources _ _ Hf Hc). now left.
  - intros k v Hk Hv. rewrite map_rev, <- in_rev in Hk.
    rewrite (get_car_after_flights _ _ Hf Hc e k Hk) in Hv.
    apply (Hsrc k v); [|exact Hv].
    apply (mobility_sources _ _ Hf Hc). now right.
Qed.

Lemma scenarios_non_negative_binary64_other_order
    (baseline : dict spec_float) (utility : Z) :
  finite_non_negative_binary64 baseline ->
  let other := ["car_essence"; "car_diesel"] in
  let digital_reduction := fst (utility_parameters utility) in
  let mobility_factor := snd (utility_parameters utility) in
  non_negative_binary64
    (fold_left modal_car_step other
       (fold_left modal_flight_step MAX_FLIGHT_SUBSTITUTION baseline))
  /\ non_negative_binary64
       (fold_left (utility_car_step mobility_factor) other
          (fold_left (utility_flight_step mobility_factor)
             MAX_FLIGHT_SUBSTITUTION
             (fold_left (digital_step digital_reduction)
                DIGITAL_SOBRIETY_POSTS baseline))).
Proof.
  intros Hb. cbv zeta.
  pose proof (finite_non_negative_binary64_weaken baseline Hb) as Hn.
  rewrite modal_loops_other_order, utility_loops_other_order.
  split.
  - apply (car_loop_other_order_non_negative_binary64
             modal_flight_rules modal_car_rules baseline);
      [exact modal_flight_keys|exact modal_car_keys
      |exact keeps_modal_flight_rules|exact keeps_modal_car_rules
      |exact Hn|now apply mobility_sources_finite].
  - destruct (keeps_utility_rules utility) as [Hd [Hf Hc]]. cbv zeta in Hd, Hf, Hc.
    apply (car_loop_other_order_non_negative_binary64
             (utility_flight_rules (snd (utility_parameters utility)))
             (utility_car_rules (snd (utility_parameters utility))));
      [apply utility_flight_keys|apply utility_car_keys
      |exact Hf|exact Hc| |].
    + assert (N0 : nonneg64 (lit (A:=binary64) 0)) by reflexivity.
      apply digital_loop_keeps_amounts; [|exact Hn].
      intros v Hv _. now apply digital_cut_nonneg.
    + intros k v Hk Hg.
      rewrite get_after_digital in Hg.
      * exact (all_amounts_get _ k v baseline Hb Hg).
      * simpl in Hk. intuition (subst; reflexivity).
Qed.
End ScenariosBinary64.

(** ** Signs and totals *)




(** The amounts have to be finite: [+inf], which the calculator returns
    for a quantity such as ["1e999"], is outside the amounts of an
    emissions mapping, and the flight step computes [inf - inf] on it. *)
Lemma modal_substitution_infinite_amount :
  fst (calculate_emissions (A:=binary64) read_float [("flight_long", "1e999")])
    = [("flight_long", S754_infinity false)]
  /\ scenario_modal_substitution (A:=binary64)
       [("flight_long", S754_infinity false)]
     = [("flight_long", S754_nan); ("train_tgv", S754_infinity false)].
Proof. split; vm_compute; reflexivity. Qed.

(** C7. for every baseline with non-negative values, the sum of the values
    of [scenario_modal_substitution] is at most the sum of the values of the
    baseline, when the arithmetic is exact. *)
Theorem modal_substitution_conservation (baseline : emissions_map) :
  non_negative baseline ->
  py_sum (values (scenario_modal_substitution baseline))
  <= py_sum (values baseline).
Proof.
  intros _. rewrite scenario_modal_substitution_loops.
  apply sum_mobility_loops_le;
    [exact modal_flight_keys|exact modal_car_keys
    |exact sound_modal_flight_rules|exact sound_modal_car_rules].
Qed.

Lemma modal_substitution_conservation_witness :
  non_negative [("flight_medium", 300); ("car_diesel", 80); ("carpool", 5)]
  /\ py_sum (values (scenario_modal_substitution
                       [("flight_medium", 300); ("car_diesel", 80); ("carpool", 5)]))
     <= py_sum (values [("flight_medium", 300); ("car_diesel", 80); ("carpool", 5)]).
Proof.
  assert (H : non_negative
                [("flight_medium", 300); ("car_diesel", 80); ("carpool", 5)]).
  { repeat (constructor; [unfold Qle; simpl; lia|]). constructor. }
  split; [exact H|].
  apply (modal_substitution_conservation _ H).
Defined.



(** ** Rounding

    In binary64 a car shift takes [v * 0.3] out of the car key and puts it
    on [carpool]; the two parts, each rounded, need not add up to [v]
    again.  A journey of 6.12 km by diesel car gives the baseline
    [{car_diesel: 1.53}]; after the modal substitution the values sum to
    [1.5300000000000002]. *)

(** C7, in binary64: the sum of the values of the scenario exceeds the sum
    of the values of the baseline. *)
Lemma modal_substitution_conservation_binary64 :
  let baseline := [("car_diesel", lit (A:=binary64) 1.53)] in
  let scenario := scenario_modal_substitution baseline in
  fst (calculate_emissions (A:=binary64) read_float [("car_diesel", "6.12")])
    = baseline
  /\ non_negative_binary64 baseline
  /\ scenario = [ ("car_diesel", lit 1.0710000000000002);
                  ("carpool", lit 0.45899999999999996) ]
  /\ py_sum (values baseline) = lit 1.53
  /\ py_sum (values scenario) = lit 1.5300000000000002
  /\ SFleb (py_sum (values scenario)) (py_sum (values baseline)) = false
  /\ SFltb (py_sum (values baseline)) (py_sum (values scenario)) = true
  /\ total scenario = total baseline.
Proof.
  cbv zeta. repeat split; try (vm_compute; reflexivity).
  repeat constructor.
Qed.


(* ================================================================== *)
(** * The emission calculator *)

(** Rounding never makes a positive amount out of one that is not. *)
Lemma round_half_even_nonpos (x : Q) : x <= 0 -> (round_half_even x <= 0)%Z.
Proof.
  intro Hx. unfold round_half_even.
  pose proof (Qfloor_le x) as Hlo. pose proof (Qlt_floor x) as Hhi.
  set (f := Qfloor x) in *.
  assert (Hf : (f <= 0)%Z).
  { rewrite Zle_Qle. eapply Qle_trans; [exact Hlo|exact Hx]. }
  destruct (Qcompare (x - inject_Z f) (1 # 2)) eqn:C.
  - apply Qeq_alt in C. destruct (Z.even f); [exact Hf|].
    destruct (Z.eq_dec f 0) as [E|E]; [|lia].
    rewrite E in C. unfold inject_Z in C. lra.
  - exact Hf.
  - apply Qgt_alt in C.
    destruct (Z.eq_dec f 0) as [E|E]; [|lia].
    rewrite E in C. unfold inject_Z in C. lra.
Qed.

Lemma exact_round_positive (x : Q) : 0 < exact_round x 2 -> 0 < x.
Proof.
  intro H. apply Qnot_le_lt. intro Hx.
  assert (Hr : (round_half_even (x * inject_Z (Z.pos (10 ^ 2))) <= 0)%Z).
  { apply round_half_even_nonpos.
    change (inject_Z (Z.pos (10 ^ 2))) with 100. lra. }
  unfold exact_round in H. simpl Pos.of_nat in H.
  unfold Qlt in H. simpl in H. lia.
Qed.

(** ** The loop of the calculator, in any arithmetic *)

Lemma NoDup_FACTORS {F : Type} {A : Arith F} : NoDup (keys (FACTORS (A:=A))).
Proof. now apply distinct_NoDup. Qed.

Section AnyCalculator.
Context {F : Type} {A : Arith F}.
Variable float_of_str : string -> option F.
Variable form_data : dict string.
Local Open Scope py_scope.

Local Abbreviation step := (emissions_step float_of_str form_data).
Local Abbreviation amount key factor :=
  (activity_value float_of_str form_data key * factor).

Lemma emissions_step_eq (emissions : dict F) (total : F)
    (key : string) (factor : F) :
  step (emissions, total) (key, factor) =
    if amount key factor >? lit 0
    then (set key (round (amount key factor) 2) emissions,
          total + round (amount key factor) 2)
    else (emissions, total).
Proof. reflexivity. Qed.

(** The loop over a factor table with distinct keys: what it leaves under
    each key. *)
Lemma get_emissions_loop (factors : dict F) (emissions : dict F)
    (total : F) (key : string) :
  NoDup (keys factors) ->
  get key (fst (fold_left step factors (emissions, total))) =
    match get key factors with
    | Some factor =>
        if amount key factor >? lit 0
        then Some (round (amount key factor) 2)
        else get key emissions
    | None => get key emissions
    end.
Proof.
  revert emissions total.
  induction factors as [|[k f] factors IH]; intros emissions total Hnd.
  - reflexivity.
  - inversion Hnd as [|? ? Hk Hnd']; subst. cbn [fold_left].
    rewrite emissions_step_eq. cbn [get].
    destruct (String.eqb key k) eqn:E.
    + apply String.eqb_eq in E. subst k.
      apply get_None_keys in Hk.
      destruct (amount key f >? lit 0);
        rewrite IH by exact Hnd'; rewrite Hk; [apply get_set_same|reflexivity].
    + apply String.eqb_neq in E.
      destruct (amount k f >? lit 0);
        rewrite IH by exact Hnd'; [|reflexivity].
      rewrite (get_set_other k key) by exact E. reflexivity.
Qed.

(** Nothing stored, nothing counted. *)
Lemma empty_emissions_loop (factors : dict F) (emissions : dict F)
    (total start : F) :
  (emissions = [] -> total = start) ->
  fst (fold_left step factors (emissions, total)) = [] ->
  snd (fold_left step factors (emissions, total)) = start.
Proof.
  revert emissions total.
  induction factors as [|[k f] factors IH]; intros emissions total H0 Hempty.
  - simpl in *. auto.
  - change (fold_left step ((k, f) :: factors) (emissions, total))
      with (fold_left step factors (step (emissions, total) (k, f))) in *.
    rewrite emissions_step_eq in Hempty |- *.
    destruct (amount k f >? lit 0).
    + apply IH; [|exact Hempty]. intro Hset. destruct emissions as [|[k' v'] ?];
        simpl in Hset; [discriminate|]. destruct (String.eqb k k'); discriminate.
    + now apply IH.
Qed.

(** What [calculate_emissions] stores under a key: the rounded amount when
    the amount before rounding is positive, nothing otherwise. *)
Lemma calculate_emissions_get (key : string) :
  get key (fst (calculate_emissions float_of_str form_data)) =
    match get key FACTORS with
    | Some factor =>
        if amount key factor >? lit 0
        then Some (round (amount key factor) 2)
        else None
    | None => None
    end.
Proof.
  unfold calculate_emissions.
  rewrite get_emissions_loop by exact NoDup_FACTORS.
  destruct (get key FACTORS) as [factor|]; [|reflexivity].
  now destruct (amount key factor >? lit 0).
Qed.

Lemma calculate_emissions_empty :
  fst (calculate_emissions float_of_str form_data) = [] ->
  calculate_emissions float_of_str form_data = ([], lit 0.0).
Proof.
  intro H.
  rewrite (surjective_pairing (calculate_emissions float_of_str form_data)).
  rewrite H. f_equal.
  apply (empty_emissions_loop FACTORS [] (lit 0.0) (lit 0.0));
    [reflexivity|exact H].
Qed.
End AnyCalculator.

(** ** The calculator in exact arithmetic *)

Section Calculator.
Variable float_of_str : string -> option Q.
Variable form_data : dict string.

Local Abbreviation step := (emissions_step float_of_str form_data).
Local Abbreviation amount key factor :=
  (activity_value float_of_str form_data key * factor).

(** The declared quantity is never negative. *)
Lemma activity_value_nonneg (key : string) :
  0 <= activity_value float_of_str form_data key.
Proof.
  unfold activity_value; exact_arith.
  destruct (Qlt_bool _ 0) eqn:E; [lra|]. now apply Qlt_bool_false_iff in E.
Qed.

(** A value that is absent, unreadable or negative counts as zero. *)
Lemma activity_value_clamped (key : string) :
  get key form_data = None
  \/ (exists s, get key form_data = Some s /\ float_of_str s = None)
  \/ (exists s x, get key form_data = Some s /\ float_of_str s = Some x /\ x < 0) ->
  activity_value float_of_str form_data key == 0.
Proof.
  unfold activity_value, form_get; exact_arith.
  intros [H | [[s [H1 H2]] | [s [x [H1 [H2 H3]]]]]].
  - rewrite H. reflexivity.
  - rewrite H1. simpl. rewrite H2. reflexivity.
  - rewrite H1. simpl. rewrite H2.
    apply Qlt_bool_iff in H3. rewrite H3. reflexivity.
Qed.



(** A key of the factor table whose rounded amount is positive is kept,
    with that amount. *)
Lemma calculate_emissions_keeps_positive (key : string) (factor : Q) :
  get key FACTORS = Some factor ->
  0 < round (amount key factor) 2 ->
  get key (fst (calculate_emissions float_of_str form_data))
  = Some (round (amount key factor) 2).
Proof.
  intros Hf Hpos. rewrite calculate_emissions_get, Hf. exact_arith.
  apply exact_round_positive, Qgt_bool_iff in Hpos. now rewrite Hpos.
Qed.

(** The silent clamp: a key whose raw value is absent, unreadable or
    negative is not stored, so it adds nothing to the mapping nor to the
    total, which is the sum of the stored amounts. *)
Lemma calculate_emissions_silent_clamp (key : string) :
  get key form_data = None
  \/ (exists s, get key form_data = Some s /\ float_of_str s = None)
  \/ (exists s x, get key form_data = Some s /\ float_of_str s = Some x /\ x < 0) ->
  get key (fst (calculate_emissions float_of_str form_data)) = None.
Proof.
  intro H. rewrite calculate_emissions_get.
  destruct (get key FACTORS) as [factor|]; [|reflexivity].
  assert (E : Qgt_bool (amount key factor) 0 = false).
  { apply Qgt_bool_false_iff. rewrite (activity_value_clamped key H). lra. }
  exact_arith. now rewrite E.
Qed.
End Calculator.

(** ** The calculator in binary64 *)

Section CalculatorBinary64.
Variable float_of_str : string -> option spec_float.
Variable form_data : dict string.

Lemma binary64_zero_amount (y : spec_float) :
  SFltb (S754_zero false) (SFmul prec emax (S754_zero false) y) = false.
Proof. destruct y as [s|s| |s m e]; try destruct s; reflexivity. Qed.

Lemma activity_value_clamped_binary64 (key : string) :
  get key form_data = None
  \/ (exists s, get key form_data = Some s /\ float_of_str s = None)
  \/ (exists s x, get key form_data = Some s /\ float_of_str s = Some x
                  /\ SFltb x (S754_zero false) = true) ->
  activity_value float_of_str form_data key = S754_zero false.
Proof.
  unfold activity_value, form_get.
  intros [H | [[s [H1 H2]] | [s [x [H1 [H2 H3]]]]]].
  - rewrite H. reflexivity.
  - rewrite H1. simpl. rewrite H2. reflexivity.
  - rewrite H1. simpl. rewrite H2.
    change (Q2F 0) with (S754_zero false). rewrite H3. reflexivity.
Qed.

(** The silent clamp holds in binary64 as well. *)
Lemma calculate_emissions_silent_clamp_binary64 (key : string) :
  get key form_data = None
  \/ (exists s, get key form_data = Some s /\ float_of_str s = None)
  \/ (exists s x, get key form_data = Some s /\ float_of_str s = Some x
                  /\ SFltb x (S754_zero false) = true) ->
  get key (fst (calculate_emissions float_of_str form_data)) = None.
Proof.
  intro H. rewrite calculate_emissions_get.
  destruct (get key FACTORS) as [factor|]; [|reflexivity].
  rewrite (activity_value_clamped_binary64 key H).
  change (ltb (lit 0) (mul (S754_zero false) factor))
    with (SFltb (S754_zero false) (SFmul prec emax (S754_zero false) factor)).
  now rewrite binary64_zero_amount.
Qed.
End CalculatorBinary64.

(** C1. the sparse mapping: [calculate_emissions] should keep a key only
    when its amount rounded to 2 decimals is strictly positive.  On the form
    [{llm_usage: "1"}] the amount is [1 * 0.001], positive before rounding
    and [0] after it, and the key is kept with the amount [0], in exact
    arithmetic as in binary64: the test is made before the rounding. *)
Theorem calculate_emissions_keeps_zero_amount :
  let form_data := [("llm_usage", "1")] in
  let emissions := fst (calculate_emissions (A:=exact) read_float form_data) in
  get "llm_usage" (FACTORS (A:=exact)) = Some 0.001
  /\ 0 < activity_value (A:=exact) read_float form_data "llm_usage" * 0.001
  /\ round (activity_value (A:=exact) read_float form_data "llm_usage" * 0.001) 2
     == 0
  /\ contains "llm_usage" emissions = true
  /\ value "llm_usage" emissions == 0
  /\ calculate_emissions (A:=binary64) read_float form_data
     = ([("llm_usage", S754_zero false)], S754_zero false).
Proof.
  cbv zeta. repeat apply conj; vm_compute; reflexivity.
Qed.

(* ================================================================== *)
(** * The results route *)

Section Route.
Context {F : Type} {A : Arith F}.
Variable float_of_str : string -> option F.
Variable int_of_str : string -> option Z.
Local Open Scope py_scope.

Local Abbreviation run := (results float_of_str int_of_str).

(** A utility field that [int()] cannot read ends the request with the
    [ValueError]: nothing catches it. *)
Lemma results_raises (form_data : dict string) (s : string) :
  get "mission_utility" form_data = Some s ->
  int_of_str s = None ->
  run form_data = Raises ValueError.
Proof.
  intros Hg Hs. unfold results, read_utility, form_get.
  destruct (calculate_emissions float_of_str form_data) as [em t].
  rewrite Hg. simpl. now rewrite Hs.
Qed.

(** Without the field the default [0] is used and the request goes on. *)
Lemma read_utility_default (form_data : dict string) :
  get "mission_utility" form_data = None ->
  read_utility int_of_str form_data = Returns 0%Z.
Proof. intro H. unfold read_utility, form_get. now rewrite H. Qed.

(** The profile handed to the template is the classification of the
    rounded baseline total and of the two category sums. *)
Lemma results_profile (form_data : dict string) (p : page F) :
  run form_data = Returns p ->
  page_baseline_profile p =
    classify_profile
      (round (snd (calculate_emissions float_of_str form_data)) 2)
      (sum_over mobility_posts (fst (calculate_emissions float_of_str form_data)))
      (sum_over digital_posts (fst (calculate_emissions float_of_str form_data))).
Proof.
  unfold results.
  destruct (calculate_emissions float_of_str form_data) as [em t].
  destruct (read_utility int_of_str form_data) as [u|e]; [|discriminate].
  destruct (dominant em (round t 2)) as [post share].
  intros [= <-]. reflexivity.
Qed.

(** The tests of [classify_profile], in order, as the program evaluates
    them. *)
Lemma classify_profile_tests (total mobility digital : F) :
  (ltb total (lit 100) = true -> classify_profile total mobility digital = "low")
  /\ (ltb total (lit 100) = false ->
      ltb (lit 0.6) (div digital total) = true ->
      classify_profile total mobility digital = "digital")
  /\ (ltb total (lit 100) = false ->
      ltb (lit 0.6) (div digital total) = false ->
      ltb (lit 0.6) (div mobility total) = true ->
      classify_profile total mobility digital = "mobility")
  /\ (ltb total (lit 100) = false ->
      ltb (lit 0.6) (div digital total) = false ->
      ltb (lit 0.6) (div mobility total) = false ->
      ltb (lit 0.3) (div digital total) = true ->
      ltb (lit 0.3) (div mobility total) = true ->
      classify_profile total mobility digital = "mixed")
  /\ (ltb total (lit 100) = false ->
      ltb (lit 0.6) (div digital total) = false ->
      ltb (lit 0.6) (div mobility total) = false ->
      (ltb (lit 0.3) (div digital total) = false
       \/ ltb (lit 0.3) (div mobility total) = false) ->
      classify_profile total mobility digital = "other").
Proof.
  unfold classify_profile. repeat split.
  - now intros ->.
  - now intros -> ->.
  - now intros -> -> ->.
  - now intros -> -> -> -> ->.
  - intros -> -> -> [-> | ->]; [reflexivity|].
    now destruct (ltb (lit 0.3) (div digital total)).
Qed.
End Route.

(** Without entries the scenarios have nothing to change, in any
    arithmetic. *)
Lemma scenario_utility_aware_empty {F : Type} {A : Arith F} (utility : Z) :
  scenario_utility_aware (A:=A) [] utility = [].
Proof.
  unfold scenario_utility_aware, utility_parameters.
  destruct (utility >=? 8)%Z; [reflexivity|].
  destruct (utility >=? 5)%Z; reflexivity.
Qed.

(** The branches of [classify_profile] in exact arithmetic, in order. *)
Lemma classify_profile_branches (total mobility digital : Q) :
  (total < 100 -> classify_profile total mobility digital = "low")
  /\ (~ total < 100 -> 0.6 < digital / total ->
      classify_profile total mobility digital = "digital")
  /\ (~ total < 100 -> ~ 0.6 < digital / total -> 0.6 < mobility / total ->
      classify_profile total mobility digital = "mobility")
  /\ (~ total < 100 -> ~ 0.6 < digital / total -> ~ 0.6 < mobility / total ->
      0.3 < digital / total /\ 0.3 < mobility / total ->
      classify_profile total mobility digital = "mixed")
  /\ (~ total < 100 -> ~ 0.6 < digital / total -> ~ 0.6 < mobility / total ->
      ~ (0.3 < digital / total /\ 0.3 < mobility / total) ->
      classify_profile total mobility digital = "other").
Proof.
  unfold classify_profile; exact_arith.
  destruct (Qlt_bool total 100) eqn:E0;
    [apply Qlt_bool_iff in E0|apply Qlt_bool_false_iff in E0].
  { repeat split; intros; try reflexivity; tauto. }
  case_gt (digital / total) 0.6.
  { repeat split; intros; try reflexivity; try tauto; lra. }
  case_gt (mobility / total) 0.6.
  { repeat split; intros; try reflexivity; try tauto; lra. }
  case_gt (digital / total) 0.3; case_gt (mobility / total) 0.3; simpl;
    repeat split; intros; try reflexivity; try tauto; lra.
Qed.

(** C8. the profile of the baseline is decided by the branches in this
    order, the first that holds winning: [total < 100] gives "low"; else
    [digital_sum / total > 0.6] gives "digital"; else
    [mobility_sum / total > 0.6] gives "mobility"; else both ratios above
    [0.3] give "mixed"; else "other"; every comparison is strict, as the
    boundary values show.  The same order of tests holds in any arithmetic.
    For the empty baseline the profile is "low", every total and every
    reduction is [0], the dominant key is the empty string and its share is
    [0], in exact arithmetic as in binary64. *)
Theorem profile_classification :
  (forall total mobility digital : Q,
      (total < 100 -> classify_profile total mobility digital = "low")
      /\ (~ total < 100 -> 0.6 < digital / total ->
          classify_profile total mobility digital = "digital")
      /\ (~ total < 100 -> ~ 0.6 < digital / total -> 0.6 < mobility / total ->
          classify_profile total mobility digital = "mobility")
      /\ (~ total < 100 -> ~ 0.6 < digital / total -> ~ 0.6 < mobility / total ->
          0.3 < digital / total /\ 0.3 < mobility / total ->
          classify_profile total mobility digital = "mixed")
      /\ (~ total < 100 -> ~ 0.6 < digital / total -> ~ 0.6 < mobility / total ->
          ~ (0.3 < digital / total /\ 0.3 < mobility / total) ->
          classify_profile total mobility digital = "other"))
  /\ (classify_profile (A:=exact) 99.99 80 0 = "low"
      /\ classify_profile (A:=exact) 100 0 0 = "other"
      /\ classify_profile (A:=exact) 100 70 70 = "digital"
      /\ classify_profile (A:=exact) 100 0 60 = "other"
      /\ classify_profile (A:=exact) 100 0 60.01 = "digital"
      /\ classify_profile (A:=exact) 100 60 0 = "other"
      /\ classify_profile (A:=exact) 100 60.01 0 = "mobility"
      /\ classify_profile (A:=exact) 100 30 40 = "other"
      /\ classify_profile (A:=exact) 100 40 30 = "other"
      /\ classify_profile (A:=exact) 100 30.01 30.01 = "mixed")
  /\ (forall (F : Type) (A : Arith F) (total mobility digital : F),
         (ltb total (lit 100) = true ->
          classify_profile total mobility digital = "low")
         /\ (ltb total (lit 100) = false ->
             ltb (lit 0.6) (div digital total) = true ->
             classify_profile total mobility digital = "digital")
         /\ (ltb total (lit 100) = false ->
             ltb (lit 0.6) (div digital total) = false ->
             ltb (lit 0.6) (div mobility total) = true ->
             classify_profile total mobility digital = "mobility")
         /\ (ltb total (lit 100) = false ->
             ltb (lit 0.6) (div digital total) = false ->
             ltb (lit 0.6) (div mobility total) = false ->
             ltb (lit 0.3) (div digital total) = true ->
             ltb (lit 0.3) (div mobility total) = true ->
             classify_profile total mobility digital = "mixed")
         /\ (ltb total (lit 100) = false ->
             ltb (lit 0.6) (div digital total) = false ->
             ltb (lit 0.6) (div mobility total) = false ->
             (ltb (lit 0.3) (div digital total) = false
              \/ ltb (lit 0.3) (div mobility total) = false) ->
             classify_profile total mobility digital = "other"))
  /\ (forall (F : Type) (A : Arith F) float_of_str int_of_str form_data
             (p : page F),
         results float_of_str int_of_str form_data = Returns p ->
         page_baseline_profile p =
           classify_profile
             (round (snd (calculate_emissions float_of_str form_data)) 2)
             (sum_over mobility_posts
                (fst (calculate_emissions float_of_str form_data)))
             (sum_over digital_posts
                (fst (calculate_emissions float_of_str form_data))))
  /\ (forall (float_of_str : string -> option Q) int_of_str form_data utility,
         fst (calculate_emissions float_of_str form_data) = [] ->
         read_utility int_of_str form_data = Returns utility ->
         exists p,
           results float_of_str int_of_str form_data = Returns p
           /\ page_results p = []
           /\ page_baseline_profile p = "low"
           /\ keys (page_totals p) = ["baseline"; "modal"; "digital"; "utility"]
           /\ Forall (fun kv => snd kv == 0) (page_totals p)
           /\ keys (page_reductions p) = ["modal"; "digital"; "utility"]
           /\ Forall (fun kv => snd kv == 0) (page_reductions p)
           /\ page_dominant_post p = ""
           /\ page_dominant_share p == 0)
  /\ (forall (float_of_str : string -> option spec_float) int_of_str form_data
             utility,
         fst (calculate_emissions float_of_str form_data) = [] ->
         read_utility int_of_str form_data = Returns utility ->
         exists p,
           results float_of_str int_of_str form_data = Returns p
           /\ page_results p = []
           /\ page_baseline_profile p = "low"
           /\ keys (page_totals p) = ["baseline"; "modal"; "digital"; "utility"]
           /\ Forall (fun kv => snd kv = S754_zero false) (page_totals p)
           /\ keys (page_reductions p) = ["modal"; "digital"; "utility"]
           /\ Forall (fun kv => snd kv = S754_zero false) (page_reductions p)
           /\ page_dominant_post p = ""
           /\ page_dominant_share p = S754_zero false).
Proof.
  split; [exact classify_profile_branches|].
  split; [repeat split; vm_compute; reflexivity|].
  split; [intros F A; exact classify_profile_tests|].
  split; [intros F A; exact results_profile|].
  split.
  - intros float_of_str int_of_str form_data utility Hempty Hu.
    unfold results.
    rewrite (calculate_emissions_empty _ _ Hempty), Hu.
    rewrite scenario_utility_aware_empty.
    eexists. split; [reflexivity|]. cbn.
    repeat split; try reflexivity; repeat constructor.
  - intros float_of_str int_of_str form_data utility Hempty Hu.
    unfold results.
    rewrite (calculate_emissions_empty _ _ Hempty), Hu.
    rewrite scenario_utility_aware_empty.
    eexists. split; [reflexivity|]. vm_compute.
    repeat split; repeat constructor.
Qed.

Lemma profile_classification_witness :
  fst (calculate_emissions (A:=exact) read_float [("gas", "-3"); ("bus", "n/a")])
    = []
  /\ read_utility parse_int [("gas", "-3"); ("bus", "n/a")] = Returns 0%Z
  /\ exists p,
       results (A:=exact) read_float parse_int [("gas", "-3"); ("bus", "n/a")]
         = Returns p
       /\ page_baseline_profile p = "low"
       /\ page_dominant_post p = "".
Proof.
  assert (H1 : fst (calculate_emissions (A:=exact) read_float
                      [("gas", "-3"); ("bus", "n/a")]) = []) by reflexivity.
  assert (H2 : read_utility parse_int [("gas", "-3"); ("bus", "n/a")]
               = Returns 0%Z) by reflexivity.
  split; [exact H1|]. split; [exact H2|].
  destruct (proj1 (proj2 (proj2 (proj2 (proj2 profile_classification))))
              read_float parse_int _ 0%Z H1 H2)
    as [p [Hp [_ [Hprofile [_ [_ [_ [_ [Hpost _]]]]]]]]].
  exists p. repeat split; assumption.
Defined.

(** C9. no parsing failure should propagate an error, the utility score
    of the form included.  [calculate_emissions] keeps to this (see
    [calculate_emissions_silent_clamp]), but [results] reads the utility
    with a bare [int()]: on a form whose utility field is left empty the
    request ends with the [ValueError], whatever the arithmetic. *)
Theorem results_raises_on_empty_utility :
  let form_data := [("flight_long", "1000"); ("mission_utility", "")] in
  parse_int "" = None
  /\ parse_float "" = None
  /\ (forall (F : Type) (A : Arith F) (float_of_str : string -> option F),
         results float_of_str parse_int form_data = Raises ValueError)
  /\ results (A:=binary64) read_float parse_int form_data = Raises ValueError.
Proof.
  cbv zeta. split; [reflexivity|]. split; [reflexivity|]. split.
  - intros F A float_of_str.
    now apply (results_raises float_of_str parse_int _ "").
  - now apply (results_raises read_float parse_int _ "").
Qed.

(* ================================================================== *)
(** * Further properties of the program *)

(** ** The calculator as a comprehension *)

Lemma set_fresh {V : Type} (k : string) (v : V) (d : dict V) :
  ~ In k (keys d) -> set k v d = (d ++ [(k, v)])%list.
Proof.
  induction d as [|[k' v'] d IH]; simpl; intro H; [reflexivity|].
  destruct (String.eqb k k') eqn:E.
  - apply String.eqb_eq in E. subst. tauto.
  - rewrite IH by tauto. reflexivity.
Qed.

Lemma fold_left_ext_in {S T : Type} (f g : S -> T -> S) (l : list T) :
  (forall x, In x l -> forall a, f a x = g a x) ->
  forall a, fold_left f l a = fold_left g l a.
Proof.
  induction l as [|x l IH]; intros H a; [reflexivity|]. simpl.
  rewrite (H x) by now left. apply IH. intros y Hy. apply H. now right.
Qed.

Lemma NoDup_keys_filter {V : Type} (p : string * V -> bool) (d : dict V) :
  NoDup (keys d) -> NoDup (keys (filter p d)).
Proof.
  unfold keys. induction d as [|[k v] d IH]; simpl; intro H; [constructor|].
  inversion H as [|? ? Hk Hd]; subst.
  destruct (p (k, v)); simpl; [|now apply IH].
  constructor; [|now apply IH].
  intro Hin. apply Hk. apply in_map_iff in Hin as [x [Hx Hin]].
  apply filter_In in Hin as [Hin _]. rewrite <- Hx. now apply in_map.
Qed.

Section CalculatorShape.
Context {F : Type} {A : Arith F}.
Variable float_of_str : string -> option F.
Local Open Scope py_scope.

(** The amount of [item] before rounding. *)
Local Abbreviation amount form_data item :=
  (activity_value float_of_str form_data (fst item) * snd item).

Lemma emissions_loop_shape (form_data : dict string) (factors : dict F) :
  forall (emissions : dict F) (total : F),
  NoDup (keys factors) ->
  (forall k, In k (keys factors) -> ~ In k (keys emissions)) ->
  let kept := filter (fun item => amount form_data item >? lit 0) factors in
  let stored :=
    map (fun item => (fst item, round (amount form_data item) 2)) kept in
  fold_left (emissions_step float_of_str form_data) factors (emissions, total)
  = ((emissions ++ stored)%list, fold_left add (values stored) total).
Proof.
  induction factors as [|[k f] factors IH]; intros emissions total Hnd Hfresh.
  - cbn. now rewrite app_nil_r.
  - inversion Hnd as [|? ? Hk Hnd']; subst. cbn [fold_left].
    rewrite (emissions_step_eq float_of_str form_data). cbn [filter fst snd].
    destruct (activity_value float_of_str form_data k * f >? lit 0) eqn:E.
    + rewrite IH; [|exact Hnd'|].
      * rewrite set_fresh by (apply Hfresh; now left).
        cbn [map fst snd values fold_left]. now rewrite <- app_assoc.
      * intros k' Hk'. rewrite set_fresh by (apply Hfresh; now left).
        unfold keys. rewrite map_app, in_app_iff. simpl.
        intros [H | [H | []]].
        -- apply (Hfresh k'); [now right|exact H].
        -- subst k'. exact (Hk Hk').
    + apply IH; [exact Hnd'|]. intros k' Hk'. apply Hfresh. now right.
Qed.

Lemma emissions_loop_comprehension (form_data : dict string)
    (factors : dict F) (start : F) :
  NoDup (keys factors) ->
  let kept := filter (fun item => amount form_data item >? lit 0) factors in
  let stored :=
    map (fun item => (fst item, round (amount form_data item) 2)) kept in
  fold_left (emissions_step float_of_str form_data) factors ([], start)
    = (stored, fold_left add (values stored) start)
  /\ keys stored = keys kept
  /\ incl (keys stored) (keys factors)
  /\ NoDup (keys stored).
Proof.
  intros Hnd kept stored.
  assert (Hkeys : keys stored = keys kept).
  { unfold stored, keys. rewrite map_map. reflexivity. }
  split; [|split; [exact Hkeys|split]].
  - etransitivity.
    + apply (emissions_loop_shape form_data factors [] start Hnd).
      intros k _ [].
    + reflexivity.
  - rewrite Hkeys. intros k Hk. unfold keys in *.
    apply in_map_iff in Hk as [item [<- Hin]].
    apply filter_In in Hin as [Hin _]. now apply in_map.
  - rewrite Hkeys. now apply NoDup_keys_filter.
Qed.

(** X1. [calculate_emissions] as a comprehension, in any arithmetic: the
    mapping holds, in the order of the factor table, the keys whose amount
    [quantity * factor] is positive before rounding, each with that amount
    rounded to 2 decimals, and the total is [0.0] with these rounded
    amounts added one by one.  So the keys of the result are keys of the
    factor table, without repetition. *)
Theorem calculate_emissions_comprehension (form_data : dict string) :
  let kept := filter (fun item => amount form_data item >? lit 0) FACTORS in
  let stored :=
    map (fun item => (fst item, round (amount form_data item) 2)) kept in
  calculate_emissions float_of_str form_data
    = (stored, fold_left add (values stored) (lit 0.0))
  /\ keys stored = keys kept
  /\ incl (keys stored) (keys FACTORS)
  /\ NoDup (keys stored).
Proof.
  exact (emissions_loop_comprehension form_data FACTORS (lit 0.0) NoDup_FACTORS).
Qed.
End CalculatorShape.

(** X2. [calculate_emissions] reads the form only under the keys of the
    factor table: two forms that agree on these keys give the same
    mapping and the same total, in any arithmetic.  A field such as
    [mission_utility], posted with the same form, changes nothing. *)
Theorem calculate_emissions_reads_factor_keys {F : Type} {A : Arith F}
    (float_of_str : string -> option F) (form_data form_data' : dict string) :
  (forall key, In key (keys (FACTORS (A:=A))) ->
               get key form_data = get key form_data') ->
  calculate_emissions float_of_str form_data
  = calculate_emissions float_of_str form_data'.
Proof.
  intro H. unfold calculate_emissions. apply fold_left_ext_in.
  intros [key factor] Hin [emissions total].
  assert (Hkey : get key form_data = get key form_data').
  { apply H. unfold keys. now apply (in_map fst) in Hin. }
  rewrite !emissions_step_eq. unfold activity_value, form_get.
  now rewrite Hkey.
Qed.

Lemma calculate_emissions_reads_factor_keys_witness :
  calculate_emissions (A:=binary64) read_float
    [("coffee", "2"); ("mission_utility", "7"); ("comment", "n/a")]
  = calculate_emissions (A:=binary64) read_float [("coffee", "2")].
Proof.
  apply calculate_emissions_reads_factor_keys.
  intros key Hkey. simpl in Hkey.
  repeat (destruct Hkey as [<- | Hkey]; [reflexivity|]). destruct Hkey.
Defined.

(** ** Rounding in exact arithmetic *)














(** ** What the calculator returns, in exact arithmetic *)



(** ** Values the calculator does not count *)

Lemma binary64_not_positive_amount (x y : spec_float) :
  SFltb (S754_zero false) x = false ->
  SFltb (S754_zero false)
    (SFmul prec emax (if SFltb x (S754_zero false) then S754_zero false else x) y)
  = false.
Proof.
  intro Hx.
  destruct x as [[|]|[|]| |[|] m e]; try discriminate; simpl;
    destruct y as [[|]|[|]| |[|] m' e']; reflexivity.
Qed.

(** X4. a key of the form whose field is absent, is not read by [float()],
    or is read as a number that is not positive (negative, zero or, in
    binary64, not a number) is not stored by [calculate_emissions], in
    exact arithmetic and in binary64. *)
Theorem calculate_emissions_skips_unusable_values :
  (forall (float_of_str : string -> option Q) form_data key,
      get key form_data = None
      \/ (exists s, get key form_data = Some s /\ float_of_str s = None)
      \/ (exists s x, get key form_data = Some s /\ float_of_str s = Some x
                      /\ x <= 0) ->
      get key (fst (calculate_emissions float_of_str form_data)) = None)
  /\ (forall (float_of_str : string -> option spec_float) form_data key,
         get key form_data = None
         \/ (exists s, get key form_data = Some s /\ float_of_str s = None)
         \/ (exists s x, get key form_data = Some s
                         /\ float_of_str s = Some x
                         /\ SFltb (S754_zero false) x = false) ->
         get key (fst (calculate_emissions float_of_str form_data)) = None).
Proof.
  split.
  - intros float_of_str form_data key H.
    rewrite calculate_emissions_get.
    destruct (get key FACTORS) as [factor|]; [|reflexivity].
    assert (Hv : activity_value float_of_str form_data key == 0).
    { destruct H as [H | [H | [s [x [H1 [H2 H3]]]]]].
      - apply activity_value_clamped. now left.
      - apply activity_value_clamped. right. now left.
      - unfold activity_value, form_get; exact_arith.
        rewrite H1. simpl. rewrite H2.
        destruct (Qlt_bool x 0) eqn:E; [reflexivity|].
        apply Qlt_bool_false_iff in E. lra. }
    assert (E : Qgt_bool (activity_value float_of_str form_data key * factor) 0
                = false).
    { apply Qgt_bool_false_iff. rewrite Hv. lra. }
    exact_arith. now rewrite E.
  - intros float_of_str form_data key H.
    destruct H as [H | [H | [s [x [H1 [H2 H3]]]]]].
    + apply calculate_emissions_silent_clamp_binary64. now left.
    + apply calculate_emissions_silent_clamp_binary64. right. now left.
    + rewrite calculate_emissions_get.
      destruct (get key FACTORS) as [factor|]; [|reflexivity].
      assert (Hv : activity_value float_of_str form_data key
                   = if SFltb x (S754_zero false) then S754_zero false else x).
      { unfold activity_value, form_get. rewrite H1. simpl. rewrite H2.
        reflexivity. }
      rewrite Hv.
      change (ltb (lit 0) (mul ?a factor))
        with (SFltb (S754_zero false) (SFmul prec emax a factor)).
      now rewrite binary64_not_positive_amount.
Qed.

Lemma calculate_emissions_skips_unusable_values_witness :
  get "gas"
    (fst (calculate_emissions (A:=binary64) read_float
            [("gas", "-3"); ("bus", "n/a"); ("coffee", "0")])) = None
  /\ get "coffee"
       (fst (calculate_emissions (A:=exact) read_float
               [("gas", "-3"); ("bus", "n/a"); ("coffee", "0")])) = None.
Proof.
  split.
  - apply (proj2 calculate_emissions_skips_unusable_values).
    right. right. exists "-3", (lit (-3)). repeat split; reflexivity.
  - apply (proj1 calculate_emissions_skips_unusable_values).
    right. right. exists "0", 0.
    split; [reflexivity|split; [reflexivity|apply Qle_refl]].
Defined.

(** ** The keys of the scenarios, in any arithmetic *)

Section ScenarioKeys.
Context {F : Type} {A : Arith F}.
Local Open Scope py_scope.

Lemma contains_keys (k : string) (d : dict F) :
  contains k d = true <-> In k (keys d).
Proof.
  unfold contains. destruct (get k d) eqn:E.
  - split; [|reflexivity]. intros _.
    destruct (in_dec string_dec k (keys d)) as [H|H]; [exact H|].
    apply get_None_keys in H. congruence.
  - split; [discriminate|]. intro H. apply get_None_keys in E. tauto.
Qed.

Lemma existsb_map_fst {T : Type} (p : string -> bool)
    (l : list (string * T)) :
  existsb p (map fst l) = existsb (fun item => p (fst item)) l.
Proof. induction l as [|x l IH]; simpl; [reflexivity|now rewrite IH]. Qed.

Lemma keys_shift_loop_any (dst : string) (realloc : F -> F)
    (rules : list (string * (F -> F))) : forall e : dict F,
  NoDup (map fst rules) -> ~ In dst (map fst rules) ->
  keys (shift_loop dst realloc rules e)
  = (keys e ++ added_key dst (map fst rules) e)%list.
Proof.
  unfold added_key.
  induction rules as [|[s r] rules IH]; intros e Hnd Hdst.
  - simpl. now rewrite app_nil_r.
  - rewrite shift_loop_cons. simpl in Hnd, Hdst |- *.
    inversion Hnd as [|? ? Hs Hnd']; subst.
    rewrite IH by tauto.
    rewrite keys_shift by (intro; subst; tauto).
    rewrite !existsb_map_fst.
    rewrite (positive_sources_shift dst realloc rules s r e) by tauto.
    rewrite contains_shift_dst.
    destruct (positive_at s e), (contains dst e),
      (existsb (fun rule => positive_at (fst rule) e) rules); simpl;
      rewrite ?app_nil_r, <- ?app_assoc; reflexivity.
Qed.

Lemma positive_at_ext (e e' : dict F) (ks : list string) :
  (forall k, In k ks -> get k e' = get k e) ->
  existsb (fun k => positive_at k e') ks = existsb (fun k => positive_at k e) ks.
Proof.
  intro H. induction ks as [|k ks IH]; [reflexivity|]. simpl.
  unfold positive_at at 1 3. rewrite H by now left.
  f_equal. apply IH. intros k' Hk'. apply H. now right.
Qed.

Lemma added_key_ext (dst : string) (ks : list string) (e e' : dict F) :
  (forall k, In k ks -> get k e' = get k e) -> get dst e' = get dst e ->
  added_key dst ks e' = added_key dst ks e.
Proof.
  intros H Hd. unfold added_key, contains.
  now rewrite (positive_at_ext e e' ks H), Hd.
Qed.

Lemma mobility_loops_keys
    (flight_rules car_rules : list (string * (F -> F))) (e : dict F) :
  map fst flight_rules = map fst (MAX_FLIGHT_SUBSTITUTION (A:=A)) ->
  map fst car_rules = CAR_POSTS ->
  keys (mobility_loops flight_rules car_rules e)
  = (keys e
     ++ added_key "train_tgv" ["flight_short"; "flight_medium"; "flight_long"] e
     ++ added_key "carpool" CAR_POSTS e)%list.
Proof.
  intros Hf Hc. unfold mobility_loops.
  rewrite keys_shift_loop_any;
    [|exact (NoDup_car_keys _ Hc)|rewrite Hc; simpl; intuition discriminate].
  rewrite keys_shift_loop_any;
    [|exact (NoDup_flight_keys _ Hf)|rewrite Hf; simpl; intuition discriminate].
  rewrite Hf, Hc, <- app_assoc. do 2 f_equal.
  apply added_key_ext.
  - intros k Hk. apply get_shift_loop_other.
    + rewrite Hf. simpl in Hk |- *. intuition (subst; discriminate).
    + simpl in Hk. intuition (subst; discriminate).
  - apply get_shift_loop_other; [|discriminate].
    rewrite Hf. simpl. intuition discriminate.
Qed.

Lemma NoDup_added_key (dst : string) (ks : list string) (e : dict F)
    (l : list string) :
  NoDup (keys e ++ l) -> ~ In dst l ->
  NoDup (keys e ++ l ++ added_key dst ks e).
Proof.
  intros Hnd Hl. unfold added_key.
  destruct (existsb _ ks); simpl; [|now rewrite app_nil_r].
  destruct (contains dst e) eqn:E; simpl; [now rewrite app_nil_r|].
  assert (Hout : ~ In dst (keys e)).
  { intro H. apply contains_keys in H. congruence. }
  rewrite app_assoc.
  apply NoDup_rev in Hnd. rewrite <- (rev_involutive ((keys e ++ l) ++ [dst])).
  apply NoDup_rev. rewrite rev_app_distr. simpl. constructor; [|exact Hnd].
  rewrite <- in_rev, in_app_iff. tauto.
Qed.

Lemma mobility_keys_facts (baseline : dict F) (utility : Z) :
  let added :=
    (added_key "train_tgv" ["flight_short"; "flight_medium"; "flight_long"]
       baseline
     ++ added_key "carpool" CAR_POSTS baseline)%list in
  keys (scenario_modal_substitution baseline) = (keys baseline ++ added)%list
  /\ keys (scenario_utility_aware baseline utility)
     = (keys baseline ++ added)%list
  /\ incl added ["train_tgv"; "carpool"]
  /\ (NoDup (keys baseline) -> NoDup (keys baseline ++ added)).
Proof.
  cbv zeta. split; [|split; [|split]].
  - rewrite scenario_modal_substitution_loops.
    apply mobility_loops_keys; [exact modal_flight_keys|exact modal_car_keys].
  - rewrite scenario_utility_aware_loops. cbv zeta.
    rewrite mobility_loops_keys;
      [|apply utility_flight_keys|apply utility_car_keys].
    rewrite keys_digital_loop. f_equal. f_equal.
    + apply added_key_ext; [|now apply get_after_digital].
      intros k Hk. apply get_after_digital.
      simpl in Hk. intuition (subst; reflexivity).
    + apply added_key_ext; [|now apply get_after_digital].
      intros k Hk. apply get_after_digital.
      simpl in Hk. intuition (subst; reflexivity).
  - unfold added_key. intros k Hk. apply in_app_iff in Hk as [Hk | Hk].
    + destruct (_ && _)%bool; simpl in Hk; [|contradiction].
      destruct Hk as [<- | []]. now left.
    + destruct (_ && _)%bool; simpl in Hk; [|contradiction].
      destruct Hk as [<- | []]. right. now left.
  - intro Hnd. apply NoDup_added_key.
    + pose proof (NoDup_added_key "train_tgv"
                    ["flight_short"; "flight_medium"; "flight_long"]
                    baseline []) as H.
      rewrite app_nil_r in H. apply H; [exact Hnd|intros []].
    + unfold added_key. intro Hin.
      destruct (_ && _)%bool; simpl in Hin; [|contradiction].
      destruct Hin as [Hin | []]. discriminate.
Qed.
(** X5. the keys of the two mobility scenarios, in any arithmetic: the
    keys of the baseline in their order, then [train_tgv] when it was
    absent and a flight is positive, then [carpool] when it was absent and
    a car is positive.  No key is removed or moved, at most these two are
    added, and distinct keys stay distinct. *)
Theorem mobility_scenarios_keys (baseline : dict F) (utility : Z) :
  let added :=
    (added_key "train_tgv" ["flight_short"; "flight_medium"; "flight_long"]
       baseline
     ++ added_key "carpool" CAR_POSTS baseline)%list in
  keys (scenario_modal_substitution baseline) = (keys baseline ++ added)%list
  /\ keys (scenario_utility_aware baseline utility)
     = (keys baseline ++ added)%list
  /\ incl added ["train_tgv"; "carpool"]
  /\ (NoDup (keys baseline) -> NoDup (keys baseline ++ added)).
Proof. exact (mobility_keys_facts baseline utility). Qed.
End ScenarioKeys.

Lemma mobility_scenarios_keys_witness :
  let baseline :=
    [("flight_long", lit (A:=binary64) 1000); ("car_diesel", lit 50)] in
  NoDup (keys baseline)
  /\ NoDup (keys (scenario_modal_substitution baseline)).
Proof.
  intro baseline.
  assert (H : NoDup (keys baseline)) by now apply distinct_NoDup.
  split; [exact H|].
  rewrite (proj1 (mobility_scenarios_keys baseline 0%Z)).
  exact (proj2 (proj2 (proj2 (mobility_scenarios_keys baseline 0%Z))) H).
Defined.

(** ** Scenarios that have nothing to act on, and scenarios in sequence *)

Section ScenarioSequences.
Context {F : Type} {A : Arith F}.
Local Open Scope py_scope.

Lemma digital_loop_idle (reduction : F) (posts : list string) :
  forall e : dict F,
  (forall post, In post posts -> positive_at post e = false) ->
  fold_left (digital_step reduction) posts e = e.
Proof.
  induction posts as [|p posts IH]; intros e H; [reflexivity|]. simpl.
  rewrite digital_step_idle by (apply H; now left).
  apply IH. intros post Hp. apply H. now right.
Qed.

Lemma no_positive_source (ks : list string) (e : dict F)
    (rules : list (string * (F -> F))) :
  map fst rules = ks ->
  (forall k, In k ks -> positive_at k e = false) ->
  existsb (fun rule => positive_at (fst rule) e) rules = false.
Proof.
  intros <- H. induction rules as [|[k r] rules IH]; [reflexivity|].
  simpl in *. rewrite (H k) by now left. apply IH.
  intros k' Hk'. apply H. now right.
Qed.

Lemma mobility_loops_idle
    (flight_rules car_rules : list (string * (F -> F))) (e : dict F) :
  map fst flight_rules = map fst (MAX_FLIGHT_SUBSTITUTION (A:=A)) ->
  map fst car_rules = CAR_POSTS ->
  (forall k, In k MOBILITY_SUBSTITUTION_POSTS -> positive_at k e = false) ->
  mobility_loops flight_rules car_rules e = e.
Proof.
  intros Hf Hc H. unfold mobility_loops.
  rewrite (shift_loop_idle "train_tgv" to_rail flight_rules e).
  - apply shift_loop_idle.
    apply (no_positive_source CAR_POSTS); [exact Hc|].
    intros k Hk. apply H. simpl in Hk |- *. tauto.
  - apply (no_positive_source (map fst MAX_FLIGHT_SUBSTITUTION)); [exact Hf|].
    intros k Hk. apply H. simpl in Hk |- *. tauto.
Qed.

(** X6. a scenario acts on positive amounts only, in any arithmetic: when
    no flight and no car key of the baseline is positive the modal
    substitution returns the baseline as it is; when no adjustable digital
    key is positive so does the digital sobriety; when both hold so does
    the utility-aware scenario, whatever the utility score. *)
Theorem scenarios_without_positive_source (baseline : dict F) (utility : Z) :
  ((forall k, In k MOBILITY_SUBSTITUTION_POSTS ->
              positive_at k baseline = false) ->
   scenario_modal_substitution baseline = baseline)
  /\ ((forall k, In k DIGITAL_SOBRIETY_POSTS ->
                 positive_at k baseline = false) ->
      scenario_digital_sobriety baseline = baseline)
  /\ ((forall k, In k MOBILITY_SUBSTITUTION_POSTS ->
                 positive_at k baseline = false) ->
      (forall k, In k DIGITAL_SOBRIETY_POSTS ->
                 positive_at k baseline = false) ->
      scenario_utility_aware baseline utility = baseline).
Proof.
  split; [|split].
  - intro H. rewrite scenario_modal_substitution_loops.
    apply mobility_loops_idle;
      [exact modal_flight_keys|exact modal_car_keys|exact H].
  - intro H. rewrite scenario_digital_sobriety_loop.
    now apply digital_loop_idle.
  - intros Hm Hd. rewrite scenario_utility_aware_loops. cbv zeta.
    rewrite digital_loop_idle by exact Hd.
    apply mobility_loops_idle;
      [apply utility_flight_keys|apply utility_car_keys|exact Hm].
Qed.

(** What the mobility loops leave under the keys they touch depends on
    the mapping through these keys only. *)
Lemma get_present (k : string) (x : F) (d : dict F) :
  get k d = if contains k d then Some (get_default k x d) else None.
Proof. unfold contains, get_default. now destruct (get k d). Qed.

Lemma mobility_loops_get_ext
    (flight_rules car_rules : list (string * (F -> F))) (e e' : dict F) :
  map fst flight_rules = map fst (MAX_FLIGHT_SUBSTITUTION (A:=A)) ->
  map fst car_rules = CAR_POSTS ->
  (forall k, In k (MOBILITY_SUBSTITUTION_POSTS ++ ["train_tgv"; "carpool"]) ->
             get k e' = get k e) ->
  forall k, In k (MOBILITY_SUBSTITUTION_POSTS ++ ["train_tgv"; "carpool"]) ->
    get k (mobility_loops flight_rules car_rules e')
    = get k (mobility_loops flight_rules car_rules e).
Proof.
  intros Hf Hc H k Hk.
  assert (Hflights : forall k, In k (map fst flight_rules) ->
                               get k e' = get k e).
  { intros k0 Hk0. apply H. rewrite Hf in Hk0. simpl in Hk0 |- *. tauto. }
  assert (Hcars : forall k, In k (map fst car_rules) -> get k e' = get k e).
  { intros k0 Hk0. apply H. rewrite Hc in Hk0. simpl in Hk0 |- *. tauto. }
  assert (Htrain : get "train_tgv" e' = get "train_tgv" e)
    by (apply H; simpl; tauto).
  assert (Hcarpool : get "carpool" e' = get "carpool" e)
    by (apply H; simpl; tauto).
  simpl in Hk.
  destruct Hk as [<- | [<- | [<- | [<- | [<- | [<- | [<- | []]]]]]]].
  - assert (Hin : In "flight_short" (map fst flight_rules))
      by (rewrite Hf; simpl; tauto).
    apply in_map_iff in Hin as [[k r] [Hfst Hin]]. simpl in Hfst. subst k.
    rewrite !(mobility_get_flight _ _ Hf Hc _ _ r Hin). now rewrite Hflights
      by (rewrite Hf; simpl; tauto).
  - assert (Hin : In "flight_medium" (map fst flight_rules))
      by (rewrite Hf; simpl; tauto).
    apply in_map_iff in Hin as [[k r] [Hfst Hin]]. simpl in Hfst. subst k.
    rewrite !(mobility_get_flight _ _ Hf Hc _ _ r Hin). now rewrite Hflights
      by (rewrite Hf; simpl; tauto).
  - assert (Hin : In "flight_long" (map fst flight_rules))
      by (rewrite Hf; simpl; tauto).
    apply in_map_iff in Hin as [[k r] [Hfst Hin]]. simpl in Hfst. subst k.
    rewrite !(mobility_get_flight _ _ Hf Hc _ _ r Hin). now rewrite Hflights
      by (rewrite Hf; simpl; tauto).
  - assert (Hin : In "car_diesel" (map fst car_rules))
      by (rewrite Hc; simpl; tauto).
    apply in_map_iff in Hin as [[k r] [Hfst Hin]]. simpl in Hfst. subst k.
    rewrite !(mobility_get_car _ _ Hf Hc _ _ r Hin). now rewrite Hcars
      by (rewrite Hc; simpl; tauto).
  - assert (Hin : In "car_essence" (map fst car_rules))
      by (rewrite Hc; simpl; tauto).
    apply in_map_iff in Hin as [[k r] [Hfst Hin]]. simpl in Hfst. subst k.
    rewrite !(mobility_get_car _ _ Hf Hc _ _ r Hin). now rewrite Hcars
      by (rewrite Hc; simpl; tauto).
  - rewrite !(get_present "train_tgv" (lit 0)).
    rewrite !(mobility_contains_train _ _ Hf Hc).
    rewrite !(mobility_received_train _ _ Hf Hc).
    rewrite (positive_sources_ext flight_rules e e' Hflights).
    rewrite (received_ext to_rail flight_rules e e' _ Hflights).
    unfold contains, get_default. now rewrite Htrain.
  - rewrite !(get_present "carpool" (lit 0)).
    rewrite !(mobility_contains_carpool _ _ Hf Hc).
    rewrite !(mobility_received_carpool _ _ Hf Hc).
    rewrite (positive_sources_ext car_rules e e' Hcars).
    rewrite (received_ext to_carpool car_rules e e' _ Hcars).
    unfold contains, get_default. now rewrite Hcarpool.
Qed.

(** X7. the two fixed scenarios act on different keys and can be applied
    in either order, in any arithmetic: on a baseline with distinct keys,
    the digital sobriety of the modal substitution is the modal
    substitution of the digital sobriety. *)
Theorem digital_and_modal_commute (baseline : dict F) :
  NoDup (keys baseline) ->
  scenario_digital_sobriety (scenario_modal_substitution baseline)
  = scenario_modal_substitution (scenario_digital_sobriety baseline).
Proof.
  intro Hnd.
  destruct (mobility_keys_facts baseline 0%Z) as [Hk [_ [_ Hnd']]].
  destruct (mobility_keys_facts (scenario_digital_sobriety baseline) 0%Z)
    as [Hk2 _].
  cbv zeta in Hk, Hk2, Hnd'.
  assert (Hd : forall e : dict F,
             scenario_digital_sobriety e
             = fold_left (digital_step MAX_DIGITAL_REDUCTION)
                         DIGITAL_SOBRIETY_POSTS e)
    by (intro e; apply scenario_digital_sobriety_loop).
  assert (Hkd : forall e : dict F, keys (scenario_digital_sobriety e) = keys e)
    by (intro e; rewrite Hd; apply keys_digital_loop).
  assert (Hget : forall k, mem k DIGITAL_SOBRIETY_POSTS = false ->
                           get k (scenario_digital_sobriety baseline)
                           = get k baseline)
    by (intros k Hk0; rewrite Hd; now apply get_after_digital).
  apply dict_ext.
  - rewrite Hkd, Hk, Hk2, Hkd. f_equal. f_equal.
    + symmetry. apply added_key_ext; [|now apply Hget].
      intros k Hk0. apply Hget. simpl in Hk0. intuition (subst; reflexivity).
    + symmetry. apply added_key_ext; [|now apply Hget].
      intros k Hk0. apply Hget. simpl in Hk0. intuition (subst; reflexivity).
  - rewrite Hkd, Hk. now apply Hnd'.
  - intro k.
    rewrite (scenario_modal_substitution_loops (scenario_digital_sobriety baseline)).
    rewrite (Hd (scenario_modal_substitution baseline)).
    rewrite (scenario_modal_substitution_loops baseline).
    pose proof (modal_flight_keys (A:=A)) as Hf.
    pose proof (modal_car_keys (A:=A)) as Hc.
    destruct (in_dec string_dec k DIGITAL_SOBRIETY_POSTS) as [Hin | Hout].
    + rewrite get_digital_loop_in;
        [|exact NoDup_DIGITAL_SOBRIETY_POSTS|exact Hin].
      assert (Hother : ~ In k MOBILITY_SUBSTITUTION_POSTS
                       /\ k <> "train_tgv" /\ k <> "carpool").
      { simpl in Hin. simpl. intuition (subst; discriminate). }
      destruct Hother as [H1 [H2 H3]].
      rewrite !(mobility_get_other _ _ Hf Hc _ k H1 H2 H3).
      rewrite Hd. symmetry.
      apply get_digital_loop_in; [exact NoDup_DIGITAL_SOBRIETY_POSTS|exact Hin].
    + rewrite get_digital_loop_other by exact Hout.
      destruct (in_dec string_dec k
                  (MOBILITY_SUBSTITUTION_POSTS ++ ["train_tgv"; "carpool"]))
        as [Hm | Hm].
      * symmetry. apply (mobility_loops_get_ext _ _ _ _ Hf Hc); [|exact Hm].
        intros k0 Hk0. apply Hget. simpl in Hk0.
        intuition (subst; reflexivity).
      * assert (Hother : ~ In k MOBILITY_SUBSTITUTION_POSTS
                         /\ k <> "train_tgv" /\ k <> "carpool").
        { simpl in Hm. simpl. intuition auto. }
        destruct Hother as [H1 [H2 H3]].
        rewrite !(mobility_get_other _ _ Hf Hc _ k H1 H2 H3).
        rewrite Hd. symmetry. now apply get_digital_loop_other.
Qed.
End ScenarioSequences.

Lemma scenarios_without_positive_source_witness :
  let baseline :=
    [("hotel_night", lit (A:=binary64) 13); ("flight_long", lit 0)] in
  (forall k, In k MOBILITY_SUBSTITUTION_POSTS -> positive_at k baseline = false)
  /\ scenario_modal_substitution baseline = baseline.
Proof.
  intro baseline.
  assert (H : forall k, In k MOBILITY_SUBSTITUTION_POSTS ->
                        positive_at k baseline = false).
  { intros k Hk. simpl in Hk.
    repeat (destruct Hk as [<- | Hk]; [reflexivity|]). destruct Hk. }
  split; [exact H|].
  exact (proj1 (scenarios_without_positive_source baseline 0%Z) H).
Defined.

Lemma digital_and_modal_commute_witness :
  let baseline :=
    [("cloud", lit (A:=binary64) 120); ("car_essence", lit 60.5)] in
  NoDup (keys baseline)
  /\ scenario_digital_sobriety (scenario_modal_substitution baseline)
     = scenario_modal_substitution (scenario_digital_sobriety baseline).
Proof.
  intro baseline.
  assert (H : NoDup (keys baseline)) by now apply distinct_NoDup.
  split; [exact H|].
  exact (digital_and_modal_commute baseline H).
Defined.

(** ** The totals of the scenarios, in exact arithmetic *)









(** ** The indicators of the results page, in exact arithmetic *)

(** [max_item] returns the first item with the largest value. *)
Lemma max_item_first_maximum (items : list (string * Q)) :
  forall (before : list (string * Q)) (best : string * Q)
         (between : list (string * Q)),
  Forall (fun x => snd x < snd best) before ->
  Forall (fun x => snd x <= snd best) between ->
  exists before' between',
    (before ++ best :: between ++ items
     = before' ++ max_item best items :: between')%list
    /\ Forall (fun x => snd x < snd (max_item best items)) before'
    /\ Forall (fun x => snd x <= snd (max_item best items)) between'.
Proof.
  induction items as [|x items IH]; intros before best between Hb Hm.
  - exists before, between. simpl. rewrite app_nil_r. auto.
  - simpl max_item. exact_arith.
    destruct (Qlt_bool (snd best) (snd x)) eqn:E.
    + apply Qlt_bool_iff in E.
      destruct (IH (before ++ best :: between)%list x []) as [b' [m' [H1 H2]]].
      * apply Forall_app. split.
        -- revert Hb. apply Forall_impl. intros y Hy. lra.
        -- constructor; [exact E|].
           revert Hm. apply Forall_impl. intros y Hy. lra.
      * constructor.
      * exists b', m'. split; [|exact H2].
        rewrite <- H1. rewrite <- !app_assoc. reflexivity.
    + apply Qlt_bool_false_iff in E.
      destruct (IH before best (between ++ [x])%list) as [b' [m' [H1 H2]]].
      * exact Hb.
      * apply Forall_app. split; [exact Hm|]. constructor; [exact E|constructor].
      * exists b', m'. split; [|exact H2].
        rewrite <- H1. rewrite <- !app_assoc. reflexivity.
Qed.

(** X10. the dominant post in exact arithmetic: for a baseline that is
    not empty and a positive total, it is the key with the largest amount,
    the first of them in the order of the mapping when several keys hold
    that amount, and its share is [amount / total * 100] rounded to one
    decimal; for an empty baseline or a total that is not positive, it is
    the empty string with share [0]. *)
Theorem dominant_first_maximum (baseline : emissions_map) (total : Q) :
  (baseline = [] \/ total <= 0 -> dominant baseline total = ("", 0))
  /\ (baseline <> [] -> 0 < total ->
      exists before k v after,
        (baseline = before ++ (k, v) :: after)%list
        /\ Forall (fun x => snd x < v) before
        /\ Forall (fun x => snd x <= v) after
        /\ dominant baseline total = (k, exact_round (v / total * 100) 1)).
Proof.
  split.
  - intros [-> | H]; [reflexivity|].
    unfold dominant; exact_arith. destruct baseline; [reflexivity|].
    assert (E : Qgt_bool total 0 = false) by now apply Qgt_bool_false_iff.
    now rewrite E.
  - intros Hne Hpos. destruct baseline as [|first rest]; [congruence|].
    destruct (max_item_first_maximum rest [] first [])
      as [before [after [H1 [H2 H3]]]]; [constructor|constructor|].
    simpl in H1.
    unfold dominant; exact_arith.
    apply Qgt_bool_iff in Hpos. rewrite Hpos.
    destruct (max_item first rest) as [k v] eqn:E. cbn [snd] in H2, H3.
    exists before, k, v, after. auto.
Qed.

Lemma dominant_first_maximum_witness :
  let baseline := [("cloud", 120); ("server", 1600); ("ai_training", 1600)] in
  baseline <> [] /\ 0 < 3320
  /\ exists before k v after,
       (baseline = before ++ (k, v) :: after)%list
       /\ Forall (fun x => snd x < v) before
       /\ Forall (fun x => snd x <= v) after
       /\ dominant baseline 3320 = (k, exact_round (v / 3320 * 100) 1).
Proof.
  intro baseline.
  assert (H1 : baseline <> []) by discriminate.
  assert (H2 : 0 < 3320) by reflexivity.
  split; [exact H1|]. split; [exact H2|].
  exact (proj2 (dominant_first_maximum baseline 3320) H1 H2).
Defined.



Section ResultsExact.
Variable float_of_str : string -> option Q.
Variable int_of_str : string -> option Z.


End ResultsExact.



(** ** The PDF export beside the results page *)

Section ExportBesideResults.
Context {F : Type} {A : Arith F}.
Variable float_of_str : string -> option F.
Variable int_of_str : string -> option Z.

Lemma report_profile_range (dominant_post : string) :
  report_profile dominant_post = "digital"
  \/ report_profile dominant_post = "other".
Proof.
  unfold report_profile.
  destruct (mem dominant_post _); [now left|now right].
Qed.

(** X13. on every form and in any arithmetic, the computation of the
    route [/export-pdf], up to the call of [generate_scar_pdf], ends as
    that of the route [/results], up to the rendering of the template:
    both raise the same error, or both return, and then the report is
    given the totals, the reductions, the utility score, the dominant post
    and its share that the page shows, with the baseline mapping.  The
    profile of the report is "digital" or "other" only, so it is never the
    profile of a page that shows "low", "mobility" or "mixed". *)
Theorem export_pdf_beside_results (form_data : dict string) :
  match results float_of_str int_of_str form_data,
        export_pdf float_of_str int_of_str form_data with
  | Returns p, Returns r =>
      report_totals r = page_totals p
      /\ report_reductions r = page_reductions p
      /\ report_utility r = page_utility p
      /\ report_dominant_post r = page_dominant_post p
      /\ report_dominant_share r = page_dominant_share p
      /\ report_emissions r = page_results p
      /\ (report_baseline_profile r = "digital"
          \/ report_baseline_profile r = "other")
      /\ (In (page_baseline_profile p) ["low"; "mobility"; "mixed"] ->
          report_baseline_profile r <> page_baseline_profile p)
  | Raises e, Raises e' => e = e'
  | _, _ => False
  end.
Proof.
  unfold results, export_pdf.
  destruct (calculate_emissions float_of_str form_data) as [em t].
  destruct (read_utility int_of_str form_data) as [u|e]; [|reflexivity].
  destruct (dominant em (round t 2)) as [post share].
  cbn [report_totals report_reductions report_utility report_dominant_post
       report_dominant_share report_emissions report_baseline_profile
       page_totals page_reductions page_utility page_dominant_post
       page_dominant_share page_results page_baseline_profile].
  repeat split.
  - apply report_profile_range.
  - intros Hin Heq. rewrite <- Heq in Hin.
    destruct (report_profile_range post) as [H | H]; rewrite H in Hin;
      simpl in Hin; intuition discriminate.
Qed.
End ExportBesideResults.

Lemma export_pdf_beside_results_witness :
  match results (A:=exact) read_float parse_int
          [("flight_long", "1000"); ("mission_utility", "7")],
        export_pdf (A:=exact) read_float parse_int
          [("flight_long", "1000"); ("mission_utility", "7")] with
  | Returns p, Returns r =>
      page_baseline_profile p = "mobility"
      /\ report_baseline_profile r = "other"
      /\ report_baseline_profile r <> page_baseline_profile p
      /\ report_totals r = page_totals p
      /\ report_reductions r = page_reductions p
  | _, _ => False
  end.
Proof.
  pose proof (export_pdf_beside_results (A:=exact) read_float parse_int
                [("flight_long", "1000"); ("mission_utility", "7")]) as H.
  vm_compute in H. vm_compute.
  destruct H as [Ht [Hred [_ [_ [_ [_ [_ Hne]]]]]]].
  split; [reflexivity|]. split; [reflexivity|].
  split; [apply Hne; right; left; reflexivity|].
  split; [exact Ht|exact Hred].
Defined.

(** ** Aggregation by category *)

Lemma get_map_values {V W : Type} (f : V -> W) (k : string) (d : dict V) :
  get k (map (fun kv => (fst kv, f (snd kv))) d) = option_map f (get k d).
Proof.
  induction d as [|[k' v] d IH]; simpl; [reflexivity|].
  destruct (String.eqb k k'); [reflexivity|exact IH].
Qed.

Lemma keys_map_values {V W : Type} (f : V -> W) (d : dict V) :
  keys (map (fun kv => (fst kv, f (snd kv))) d) = keys d.
Proof. unfold keys. rewrite map_map. reflexivity. Qed.

Section Aggregation.
Context {F : Type} {A : Arith F} {C : Compare F}.
Local Open Scope py_scope.

Lemma aggregate_step_eq (categories : dict F) (post : string) (value : F) :
  aggregate_step categories (post, value) =
    if py_le value (lit 0) then categories
    else set (category_of post)
             (get_default (category_of post) (lit 0) categories + value)
             categories.
Proof. reflexivity. Qed.

Lemma aggregate_loop_get (category : string) (emissions : dict F) :
  forall categories : dict F,
  get category (fold_left aggregate_step emissions categories) =
    match counted_in category emissions with
    | [] => get category categories
    | counted =>
        Some (fold_left add (values counted)
                (get_default category (lit 0) categories))
    end.
Proof.
  induction emissions as [|[post value] emissions IH]; intro categories.
  - reflexivity.
  - cbn [fold_left]. rewrite IH, aggregate_step_eq.
    unfold counted_in. cbn [filter fst snd].
    fold (counted_in category emissions).
    destruct (py_le value (lit 0)); cbn [negb andb]; [reflexivity|].
    destruct (String.eqb (category_of post) category) eqn:E.
    + apply String.eqb_eq in E. rewrite E.
      assert (Hget : get_default category (lit 0)
                (set category
                   (get_default category (lit 0) categories + value)
                   categories)
              = get_default category (lit 0) categories + value).
      { unfold get_default at 1. now rewrite get_set_same. }
      rewrite Hget, get_set_same.
      destruct (counted_in category emissions); reflexivity.
    + apply String.eqb_neq in E.
      assert (Hget : get_default category (lit 0)
                (set (category_of post)
                   (get_default (category_of post) (lit 0) categories + value)
                   categories)
              = get_default category (lit 0) categories).
      { unfold get_default at 1 3. now rewrite get_set_other by congruence. }
      rewrite Hget, get_set_other by congruence.
      reflexivity.
Qed.

(** X14. [aggregate_by_category], in any arithmetic: a category holds the
    sum of the amounts of its posts that are not [<= 0], added in the order
    of the mapping and rounded to 2 decimals at the end; a category
    without such a post is absent; a post that [EMISSION_CATEGORIES] does
    not know counts in "Other". *)
Theorem aggregate_by_category_get (emissions_by_post : dict F)
    (category : string) :
  get category (aggregate_by_category emissions_by_post) =
    match counted_in category emissions_by_post with
    | [] => None
    | counted => Some (round (py_sum (values counted)) 2)
    end.
Proof.
  unfold aggregate_by_category. cbv zeta.
  etransitivity;
    [exact (get_map_values (fun v => round v 2) category _)|].
  rewrite aggregate_loop_get.
  destruct (counted_in category emissions_by_post); reflexivity.
Qed.

Lemma aggregate_loop_keys (emissions : dict F) :
  forall (categories : dict F) (category : string),
  In category (keys (fold_left aggregate_step emissions categories)) ->
  In category (keys categories)
  \/ exists post, In post (keys emissions) /\ category = category_of post.
Proof.
  induction emissions as [|[post value] emissions IH];
    intros categories category Hin.
  - now left.
  - cbn [fold_left] in Hin. apply IH in Hin as [Hin | [p [Hp Hc]]].
    + rewrite aggregate_step_eq in Hin.
      destruct (py_le value (lit 0)); [now left|].
      rewrite keys_set in Hin.
      destruct (contains (category_of post) categories); [now left|].
      apply in_app_iff in Hin as [Hin | [<- | []]]; [now left|].
      right. exists post. split; [now left|reflexivity].
    + right. exists p. split; [now right|exact Hc].
Qed.

Lemma category_of_known (post : string) :
  In post (keys EMISSION_CATEGORIES) -> In (category_of post) CATEGORY_NAMES.
Proof.
  intro H. simpl in H.
  repeat (destruct H as [<- | H]; [vm_compute; tauto|]). destruct H.
Qed.

Lemma aggregate_known_posts (emissions : dict F) (category : string) :
  incl (keys emissions) (keys EMISSION_CATEGORIES) ->
  In category (keys (aggregate_by_category emissions)) ->
  In category CATEGORY_NAMES.
Proof.
  intros Hincl Hin. unfold aggregate_by_category in Hin. cbv zeta in Hin.
  replace (keys _) with (keys (fold_left aggregate_step emissions []))
    in Hin by (symmetry; exact (keys_map_values (fun v => round v 2) _)).
  apply aggregate_loop_keys in Hin as [[] | [post [Hp ->]]].
  apply category_of_known. exact (Hincl _ Hp).
Qed.

Lemma FACTORS_have_categories :
  incl (keys (FACTORS (A:=A)) ++ ["train_tgv"; "carpool"])
       (keys EMISSION_CATEGORIES).
Proof.
  intros k Hk. simpl in Hk.
  repeat (destruct Hk as [<- | Hk]; [simpl; tauto|]). destruct Hk.
Qed.

(** X15. the category "Other" is out of reach of the program: in any
    arithmetic and for every form, the categories of the baseline that
    [calculate_emissions] returns, and of its three scenarios, are among
    Mobility, Energy, Digital, Food and Events & Accommodation. *)
Theorem aggregate_by_category_known_categories
    (float_of_str : string -> option F) (form_data : dict string)
    (utility : Z) :
  let baseline := fst (calculate_emissions float_of_str form_data) in
  Forall (fun emissions =>
            incl (keys (aggregate_by_category emissions)) CATEGORY_NAMES)
         [ baseline;
           scenario_modal_substitution baseline;
           scenario_digital_sobriety baseline;
           scenario_utility_aware baseline utility ].
Proof.
  cbv zeta.
  set (baseline := fst (calculate_emissions float_of_str form_data)).
  assert (Hb : incl (keys baseline) (keys (FACTORS (A:=A)))).
  { destruct (emissions_loop_comprehension float_of_str form_data FACTORS
                (lit 0.0) NoDup_FACTORS) as [Hshape [_ [Hincl _]]].
    cbv zeta in Hshape, Hincl. unfold baseline, calculate_emissions.
    rewrite Hshape. exact Hincl. }
  assert (Hadd : incl
            (keys baseline
             ++ added_key "train_tgv"
                  ["flight_short"; "flight_medium"; "flight_long"] baseline
             ++ added_key "carpool" CAR_POSTS baseline)
            (keys EMISSION_CATEGORIES)).
  { intros k Hk. apply FACTORS_have_categories.
    apply in_app_iff in Hk as [Hk | Hk].
    - apply in_app_iff. left. exact (Hb _ Hk).
    - apply in_app_iff. right.
      destruct (mobility_keys_facts baseline 0%Z) as [_ [_ [Hincl _]]].
      exact (Hincl _ Hk). }
  destruct (mobility_keys_facts baseline utility) as [Hk1 [Hk2 _]].
  cbv zeta in Hk1, Hk2.
  repeat (apply Forall_cons || apply Forall_nil);
    intros category Hin;
    refine (aggregate_known_posts _ category _ Hin); clear category Hin.
  - intros k Hk. apply FACTORS_have_categories, in_app_iff. left.
    exact (Hb _ Hk).
  - rewrite Hk1. exact Hadd.
  - rewrite scenario_digital_sobriety_loop, keys_digital_loop.
    intros k Hk. apply FACTORS_have_categories, in_app_iff. left.
    exact (Hb _ Hk).
  - rewrite Hk2. exact Hadd.
Qed.
End Aggregation.

(** ** Aggregation and shares, in exact arithmetic *)










(** *** Shares *)






